(** * Thanos Ruler ([cmd/thanos/rule.go]): a shallow embedding and its properties

    The development follows the source file top to bottom: the setup closure
    of [registerRule], the start-up checks of [runRule], the [notify]
    callback, the file-SD update loop, the reload loop, [alertmanagerSet],
    [parseFlagLabels], [removeDuplicateQueryAddrs] and [queryFunc].

    Code that lives outside the file (Go's standard library, go-kit,
    Prometheus, and the Thanos packages [dns], [cache], [alert],
    [promclient], [thanosrule]) is reached through type classes, one per
    package, so that every function of [rule.go] is executable as soon as the
    classes are instantiated. *)

From Stdlib Require Import ZArith List String Ascii Bool Lia Permutation.
From stdpp Require Import base gmap strings list pretty.

Import ListNotations.
Local Open Scope string_scope.
Local Open Scope list_scope.

(** ** Errors ([github.com/pkg/errors]) *)

(** [errors.New]/[errors.Errorf] build a leaf, [errors.Wrap]/[errors.Wrapf]
    put a message in front of a cause. *)
Inductive error : Type :=
| errorString (msg : string)
| withMessage (cause : error) (msg : string).

Fixpoint Error (e : error) : string :=
  match e with
  | errorString msg => msg
  | withMessage cause msg => msg +:+ ": " +:+ Error cause
  end.

Definition errors_New (msg : string) : error := errorString msg.
Definition errors_Wrap (err : error) (msg : string) : error := withMessage err msg.

(** What a Go function with an [error] result (or a panic) can do. *)
Inductive outcome (A : Type) : Type :=
| Ret (a : A)
| Err (e : error)
| Panic (msg : string).
Arguments Ret {A} a.
Arguments Err {A} e.
Arguments Panic {A} msg.

(** ** Strings ([strings], [strconv], [fmt]) *)

(** [cut sep s] splits [s] around the first occurrence of the byte [sep]. *)
Fixpoint cut (sep : ascii) (s : string) : option (string * string) :=
  match s with
  | EmptyString => None
  | String c r =>
      if Ascii.eqb c sep then Some (EmptyString, r)
      else match cut sep r with
           | Some (a, b) => Some (String c a, b)
           | None => None
           end
  end.

(** [strings.SplitN(s, sep, 2)] for a one-byte separator. *)
Definition strings_SplitN2 (s : string) (sep : ascii) : list string :=
  match cut sep s with
  | Some (a, b) => [a; b]
  | None => [s]
  end.

Definition strings_Join (elems : list string) (sep : string) : string :=
  String.concat sep elems.

(** [strings.ToLower] on ASCII letters. *)
Definition lower_ascii (c : ascii) : ascii :=
  let n := nat_of_ascii c in
  if (65 <=? n)%nat && (n <=? 90)%nat then ascii_of_nat (n + 32) else c.

Fixpoint strings_ToLower (s : string) : string :=
  match s with
  | EmptyString => EmptyString
  | String c r => String (lower_ascii c) (strings_ToLower r)
  end.

Definition strconv_Itoa (n : Z) : string := pretty n.

(** ** Time ([time.Time]) *)

(** Seconds and nanoseconds since January 1, year 1 UTC, and a location.
    [IsZero] looks at the instant only. *)
Record Time : Type := mkTime { sec : Z; nsec : Z; loc : option string }.

Definition Time_zero : Time := mkTime 0 0 None.

Definition IsZero (t : Time) : bool := (sec t =? 0)%Z && (nsec t =? 0)%Z.

(** ** URLs ([net/url], [net]) *)

Record Userinfo : Type :=
  mkUserinfo { username : string; password : string; passwordSet : bool }.

Record URL : Type := mkURL {
  Scheme : string;
  Opaque : string;
  User : option Userinfo;
  Host : string;
  Path : string;
  RawPath : string;
  ForceQuery : bool;
  RawQuery : string;
  Fragment : string
}.

(** The composite literal [&url.URL{Scheme: .., Host: .., Path: .., User: ..}]:
    the fields that are not named take their zero value. *)
Definition URL_lit (scheme host path : string) (user : option Userinfo) : URL :=
  mkURL scheme "" user host path "" false "" "".

(** [url.Parse], the [String] method of a URL, [net.SplitHostPort], [strconv.Quote]
    (the [%q] verb) and [strconv.Unquote]. *)
Class GoNet : Type := {
  url_Parse : string -> URL + error;
  URL_String : URL -> string;
  net_SplitHostPort : string -> (string * string) + error;
  strconv_Quote : string -> string;
  strconv_Unquote : string -> string + error
}.

(** ** Logging and metrics (go-kit [log], [client_golang/prometheus]) *)

Inductive Level : Type := LevelDebug | LevelInfo | LevelWarn | LevelError.

Record LogEntry : Type := mkLog { lvl : Level; keyvals : list (string * string) }.

(** go-kit pairs the arguments of [Log] up and fills a missing last value. *)
Definition ErrMissingValue : string := "(MISSING)".

(** A [CounterVec] with one label: label value to count. *)
Definition CounterVec_Inc (l : string) (m : gmap string nat) : gmap string nat :=
  <[l := S (default 0%nat (m !! l))]> m.

Definition CounterVec_get (l : string) (m : gmap string nat) : nat :=
  default 0%nat (m !! l).

(** The sum over all children of the vector. *)
Definition CounterVec_total (m : gmap string nat) : nat :=
  map_fold (fun _ v acc => (v + acc)%nat) 0%nat m.

(** ** Partial response strategy ([storepb]) *)

(** Modelled from the spec: the generated enum
    [storepb.PartialResponseStrategy] is not part of the sources at hand; the
    spec gives it the two values ABORT and WARN, and its [String] method
    prints the upper-case name (lower-cased by the callers below into the
    label values "abort" and "warn"). *)
Inductive PartialResponseStrategy : Type :=
| PartialResponseStrategy_WARN
| PartialResponseStrategy_ABORT.

Definition PartialResponseStrategy_String (s : PartialResponseStrategy) : string :=
  match s with
  | PartialResponseStrategy_WARN => "WARN"
  | PartialResponseStrategy_ABORT => "ABORT"
  end.

(** [storepb.PartialResponseStrategy_value], the name-to-value table that
    [runRule] ranges over to build one manager per strategy. *)
Definition PartialResponseStrategy_value : list PartialResponseStrategy :=
  [PartialResponseStrategy_WARN; PartialResponseStrategy_ABORT].

(** ** The remote query function ([queryFunc], [removeDuplicateQueryAddrs]) *)

Record QueryOptions : Type := mkQueryOptions {
  Deduplicate : bool;
  PartialResponseStrategy_opt : PartialResponseStrategy
}.

(** The arguments of one call of [promclient.PromqlQueryInstant], with the
    span it ran in. *)
Record Request : Type := mkRequest {
  req_span : string;
  req_url : URL;
  req_query : string;
  req_time : Time;
  req_opts : QueryOptions
}.

(** A call as the trace keeps it: its arguments and what came back. *)
Record Call (Vector : Type) : Type := mkCall {
  call_args : Request;
  call_result : Vector * list string + error
}.
Arguments mkCall {Vector}.
Arguments call_args {Vector}.
Arguments call_result {Vector}.

(** [promclient.PromqlQueryInstant] talks to the network: it takes the state
    of the outside world and gives the next one together with either a
    vector and its warnings or an error (transport error, non-2xx status,
    undecodable body). *)
Class PromClient (World Vector : Type) : Type := {
  PromqlQueryInstant :
    World -> URL -> string -> Time -> QueryOptions ->
    World * (Vector * list string + error)
}.

(** Everything an evaluation can read or change: the snapshot held by the DNS
    provider ([dnsProvider.Addresses()]), the outside world, the two metrics
    handed to [queryFunc], the log, and the trace of the calls made so far. *)
Record EvalState (World Vector : Type) : Type := mkEvalState {
  dnsProvider_Addresses : list string;
  world : World;
  duplicatedQuery : nat;
  ruleEvalWarnings : gmap string nat;
  logs : list LogEntry;
  requests : list (Call Vector)
}.
Arguments mkEvalState {World Vector}.
Arguments dnsProvider_Addresses {World Vector}.
Arguments world {World Vector}.
Arguments duplicatedQuery {World Vector}.
Arguments ruleEvalWarnings {World Vector}.
Arguments logs {World Vector}.
Arguments requests {World Vector}.

Definition log_entry {World Vector} (e : LogEntry) (st : EvalState World Vector)
    : EvalState World Vector :=
  mkEvalState (dnsProvider_Addresses st) (world st) (duplicatedQuery st)
    (ruleEvalWarnings st) (logs st ++ [e]) (requests st).

Definition duplicatedQuery_Inc {World Vector} (st : EvalState World Vector)
    : EvalState World Vector :=
  mkEvalState (dnsProvider_Addresses st) (world st) (S (duplicatedQuery st))
    (ruleEvalWarnings st) (logs st) (requests st).

Definition ruleEvalWarnings_Inc {World Vector} (l : string) (st : EvalState World Vector)
    : EvalState World Vector :=
  mkEvalState (dnsProvider_Addresses st) (world st) (duplicatedQuery st)
    (CounterVec_Inc l (ruleEvalWarnings st)) (logs st) (requests st).

Definition do_request {World Vector} (w : World) (c : Call Vector)
    (st : EvalState World Vector) : EvalState World Vector :=
  mkEvalState (dnsProvider_Addresses st) w (duplicatedQuery st)
    (ruleEvalWarnings st) (logs st) (requests st ++ [c]).

(** The first loop of [removeDuplicateQueryAddrs]: [set] is the Go map used
    as a set. *)
Fixpoint removeDuplicateQueryAddrs_scan {World Vector}
    (addrs : list string) (set : gset string) (st : EvalState World Vector)
    : gset string * EvalState World Vector :=
  match addrs with
  | [] => (set, st)
  | addr :: rest =>
      let st1 :=
        if decide (addr ∈ set) then
          duplicatedQuery_Inc
            (log_entry (mkLog LevelWarn
               [("msg", "Duplicate query address is provided - %v");
                (addr, ErrMissingValue)]) st)
        else st in
      removeDuplicateQueryAddrs_scan rest ({[addr]} ∪ set) st1
  end.

(** The second loop ranges over the map, in an order Go leaves open;
    [elements] fixes one. *)
Definition removeDuplicateQueryAddrs {World Vector}
    (st : EvalState World Vector) (addrs : list string)
    : list string * EvalState World Vector :=
  let '(set, st1) := removeDuplicateQueryAddrs_scan addrs ∅ st in
  (elements set, st1).

(** The [switch] at the head of [queryFunc]; its default branch, a panic on
    an unknown strategy, has no value to run on with the two-valued enum. *)
Definition spanID (partialResponseStrategy : PartialResponseStrategy) : string :=
  match partialResponseStrategy with
  | PartialResponseStrategy_WARN => "/rule_instant_query HTTP[client]"
  | PartialResponseStrategy_ABORT => "/rule_instant_query_part_resp_abort HTTP[client]"
  end.

(** The body of [for _, i := range rand.Perm(len(addrs))], by recursion on
    the indices still to visit. *)
Fixpoint queryFunc_loop {World Vector} `{PromClient World Vector} `{GoNet}
    (partialResponseStrategy : PartialResponseStrategy)
    (addrs : list string) (q : string) (t : Time)
    (perm : list nat) (st : EvalState World Vector)
    : EvalState World Vector * outcome Vector :=
  match perm with
  | [] => (st, Err (errorString "no query peer reachable"))
  | i :: rest =>
      match addrs !! i with
      | None => (st, Panic "index out of range")
      | Some addr =>
          match url_Parse ("http://" +:+ addr) with
          | inr err => (st, Err (errors_Wrap err ("url parse " +:+ addr)))
          | inl u =>
              let opts := mkQueryOptions true partialResponseStrategy in
              let '(w, res) := PromqlQueryInstant (world st) u q t opts in
              let st1 :=
                do_request w
                  (mkCall (mkRequest (spanID partialResponseStrategy) u q t opts) res) st in
              match res with
              | inr err =>
                  queryFunc_loop partialResponseStrategy addrs q t rest
                    (log_entry (mkLog LevelError [("err", Error err); ("query", q)]) st1)
              | inl (v, warns) =>
                  let st2 :=
                    if (0 <? length warns)%nat then
                      log_entry
                        (mkLog LevelWarn
                           [("warnings", strings_Join warns ", "); ("query", q)])
                        (ruleEvalWarnings_Inc
                           (strings_ToLower
                              (PartialResponseStrategy_String partialResponseStrategy))
                           st1)
                    else st1 in
                  (st2, Ret v)
              end
          end
      end
  end.

(** The function returned by [queryFunc].  [perm] is the value drawn by
    [rand.Perm(len(addrs))]. *)
Definition queryFunc {World Vector} `{PromClient World Vector} `{GoNet}
    (partialResponseStrategy : PartialResponseStrategy)
    (perm : list nat) (st : EvalState World Vector) (q : string) (t : Time)
    : EvalState World Vector * outcome Vector :=
  let addrs := dnsProvider_Addresses st in
  let '(_, st1) := removeDuplicateQueryAddrs st addrs in
  queryFunc_loop partialResponseStrategy addrs q t perm st1.

(** The hosts the calls of a trace went to, and whether a call failed. *)
Definition attempted {Vector} (cs : list (Call Vector)) : list string :=
  map (fun c => Host (req_url (call_args c))) cs.

Definition call_failed {Vector} (c : Call Vector) : Prop :=
  exists err, call_result c = inr err.

(** A trace that the servers really gave: replaying the calls from the world
    [w], each one gets the recorded result, and the world ends as [w']. *)
Fixpoint answered {World Vector} `{PromClient World Vector}
    (w : World) (calls : list (Call Vector)) (w' : World) : Prop :=
  match calls with
  | [] => w' = w
  | c :: rest =>
      exists w1,
        PromqlQueryInstant w (req_url (call_args c)) (req_query (call_args c))
          (req_time (call_args c)) (req_opts (call_args c)) = (w1, call_result c)
        /\ answered w1 rest w'
  end.

(** The label value of the warning counter for a strategy. *)
Definition strategy_label (s : PartialResponseStrategy) : string :=
  strings_ToLower (PartialResponseStrategy_String s).

(** What one run of the loop of [queryFunc] leaves behind: the calls it
    made, and which of its three exits it took (a call succeeded, the
    indices ran out, or an address did not parse). *)
Definition loop_exit {World Vector} `{GoNet} (s : PartialResponseStrategy) (addrs : list string)
    (perm : list nat) (st st' : EvalState World Vector) (r : outcome Vector)
    (calls : list (Call Vector)) : Prop :=
  (exists v warns init c,
      r = Ret v /\ calls = init ++ [c] /\ Forall call_failed init
      /\ call_result c = inl (v, warns)
      /\ ruleEvalWarnings st' =
           (if (0 <? length warns)%nat
            then CounterVec_Inc (strategy_label s) (ruleEvalWarnings st)
            else ruleEvalWarnings st))
  \/ (r = Err (errorString "no query peer reachable")
      /\ length calls = length perm /\ Forall call_failed calls
      /\ ruleEvalWarnings st' = ruleEvalWarnings st)
  \/ (exists i addr err,
        perm !! length calls = Some i /\ addrs !! i = Some addr
        /\ url_Parse ("http://" +:+ addr) = inr err
        /\ r = Err (errors_Wrap err ("url parse " +:+ addr))
        /\ Forall call_failed calls
        /\ ruleEvalWarnings st' = ruleEvalWarnings st).

(** The call made for the index [i]: to the URL of [addrs[i]], with the
    query, the time and the options of this query function. *)
Definition call_of_index {Vector} `{GoNet} (s : PartialResponseStrategy) (addrs : list string)
    (q : string) (t : Time) (i : nat) (c : Call Vector) : Prop :=
  exists addr u,
    addrs !! i = Some addr
    /\ url_Parse ("http://" +:+ addr) = inl u
    /\ call_args c = mkRequest (spanID s) u q t (mkQueryOptions true s).

(** ** The Alertmanager set ([alertmanagerSet]) *)

(** Modelled from the spec: [dns.QType] and its constants are declared in the
    package [dns], which is not part of the sources at hand; the spec gives
    the prefix [dns+] the query type A and [dnssrv+] the query type SRV, and
    the source converts the prefix text itself into a [dns.QType]. *)
Definition QType : Type := string.
Definition dns_A : QType := "dns".
Definition dns_SRV : QType := "dnssrv".

(** The interface [dns.Resolver]: [Resolve(ctx, name, qtype)] asks the name
    service, whose state is [D]. *)
Class Resolver (D : Type) : Type := {
  Resolve : D -> string -> QType -> D * (list string + error)
}.

(** The struct without its mutex and its resolver (the latter is the
    [Resolver] instance in scope). *)
Record alertmanagerSet : Type := mkAlertmanagerSet {
  addrs : list string;
  current : list URL
}.

Definition newAlertmanagerSet (addrs : list string) : alertmanagerSet :=
  mkAlertmanagerSet addrs [].

Definition get (s : alertmanagerSet) : list URL := current s.

Definition defaultAlertmanagerPort : Z := 9093.

(** The first statements of the loop body of [update]: the name to parse and
    the query type of one configured address. *)
Definition nameQtype (addr : string) : string * QType :=
  match strings_SplitN2 addr "+" with
  | [q; n] => (n, q)
  | _ => (addr, "")
  end.

(** The host handed to the resolver for a parsed URL and a query type. *)
Definition resolveHost `{GoNet} (host : string) (qtype : QType) : string :=
  if String.eqb qtype dns_A then
    match net_SplitHostPort host with
    | inr _ => host +:+ ":" +:+ strconv_Itoa defaultAlertmanagerPort
    | inl _ => host
    end
  else host.

(** The loop of [update], by recursion on the addresses still to resolve;
    [result] is the slice built so far. *)
Fixpoint update_loop {D} `{Resolver D} `{GoNet}
    (todo : list string) (d : D) (result : list URL) : D * (list URL + error) :=
  match todo with
  | [] => (d, inl result)
  | addr :: rest =>
      let '(name, qtype) := nameQtype addr in
      match url_Parse name with
      | inr err => (d, inr (errors_Wrap err ("parse URL " +:+ strconv_Quote name)))
      | inl u =>
          if negb (String.eqb qtype "") then
            match Resolve d (resolveHost (Host u) qtype) qtype with
            | (d1, inr err) => (d1, inr (errors_Wrap err "alertmanager resolve"))
            | (d1, inl resolvedDomain) =>
                update_loop rest d1
                  (result ++
                   map (fun resolved => URL_lit (Scheme u) resolved (Path u) (User u))
                       resolvedDomain)
            end
          else
            update_loop rest d
              (result ++
               map (fun resolved => URL_lit (Scheme u) resolved (Path u) (User u))
                   [Host u])
      end
  end.

Definition update {D} `{Resolver D} `{GoNet}
    (s : alertmanagerSet) (d : D) : alertmanagerSet * D * option error :=
  match update_loop (addrs s) d [] with
  | (d1, inr err) => (s, d1, Some err)
  | (d1, inl result) => (mkAlertmanagerSet (addrs s) result, d1, None)
  end.

(** What resolving one configured address amounts to, in the words of the
    specification, when it goes well.  The name service is in the state [d]
    before and [d1] after; [g] is what the address contributes.  An address
    without "+" is parsed as it is and contributes its own host, and the
    name service is not asked.  An address [qtype+name] (the query type
    being the text before the first "+") has [name] parsed; with the empty
    query type it is treated like an address without prefix; with "dns"
    the name service is asked, in the state [d], for the host, to which
    ":9093" is appended first when [net.SplitHostPort] finds no port; with
    any other query type it is asked for the host as written.  Each record
    of the answer gives one URL with the scheme, user info and path of the
    parsed name. *)
Definition address_expansion {D} `{Resolver D} `{GoNet}
    (d : D) (addr : string) (g : list URL) (d1 : D) : Prop :=
  exists (u : URL) (recs : list string),
    g = map (fun resolved =>
               mkURL (Scheme u) "" (User u) resolved (Path u) "" false "" "") recs
    /\ (((forall a b : string, addr <> a +:+ "+" +:+ b)
         /\ url_Parse addr = inl u /\ recs = [Host u] /\ d1 = d)
        \/ exists qtype name : string,
             addr = qtype +:+ "+" +:+ name
             /\ (forall a b : string, qtype <> a +:+ "+" +:+ b)
             /\ url_Parse name = inl u
             /\ ((qtype = "" /\ recs = [Host u] /\ d1 = d)
                 \/ (qtype = "dns"
                     /\ Resolve d
                          (match net_SplitHostPort (Host u) with
                           | inr _ => Host u +:+ ":9093"
                           | inl _ => Host u
                           end) "dns" = (d1, inl recs))
                 \/ (qtype <> "" /\ qtype <> "dns"
                     /\ Resolve d (Host u) qtype = (d1, inl recs)))).

(** The same for a list of addresses resolved one after the other: the
    state the name service is left in by one address is the state the next
    one meets. *)
Fixpoint addresses_expansion {D} `{Resolver D} `{GoNet}
    (d : D) (configured : list string) (groups : list (list URL)) (d' : D) : Prop :=
  match configured, groups with
  | [], [] => d' = d
  | addr :: rest, g :: gs =>
      exists d1 : D, address_expansion d addr g d1 /\ addresses_expansion d1 rest gs d'
  | _, _ => False
  end.

(** What it is for one configured address to fail, the name service being
    in the state [d]: either the name to parse (the address, or what
    follows its first "+") is rejected by [url.Parse], and the error is
    that one wrapped with "parse URL"; or the address has a query type and
    the name service, asked as above in the state [d], answers with an
    error, which is wrapped with "alertmanager resolve". *)
Definition address_failure {D} `{Resolver D} `{GoNet}
    (d : D) (addr : string) (d1 : D) (err : error) : Prop :=
  (exists (name : string) (perr : error),
      (((forall a b : string, addr <> a +:+ "+" +:+ b) /\ name = addr)
       \/ exists qtype : string,
            addr = qtype +:+ "+" +:+ name
            /\ forall a b : string, qtype <> a +:+ "+" +:+ b)
      /\ url_Parse name = inr perr
      /\ d1 = d
      /\ err = withMessage perr ("parse URL " +:+ strconv_Quote name))
  \/ (exists (qtype name : string) (u : URL) (rerr : error),
        addr = qtype +:+ "+" +:+ name
        /\ (forall a b : string, qtype <> a +:+ "+" +:+ b)
        /\ url_Parse name = inl u
        /\ ((qtype = "dns"
             /\ Resolve d
                  (match net_SplitHostPort (Host u) with
                   | inr _ => Host u +:+ ":9093"
                   | inl _ => Host u
                   end) "dns" = (d1, inr rerr))
            \/ (qtype <> "" /\ qtype <> "dns"
                /\ Resolve d (Host u) qtype = (d1, inr rerr)))
        /\ err = withMessage rerr "alertmanager resolve").

(** The operations of [update] and [get] on the two fields that goroutines
    share, the mutex and the current slice, in program order. *)
Inductive SharedOp : Type :=
| opLock
| opUnlock
| opWrite (result : list URL)
| opRead.

(** [update] with these operations: the loop touches neither field; after
    it, on success, come [s.mtx.Lock()], the assignment and
    [s.mtx.Unlock()]; the returns inside the loop come before all three. *)
Definition update_locked {D} `{Resolver D} `{GoNet}
    (s : alertmanagerSet) (d : D)
    : alertmanagerSet * D * option error * list SharedOp :=
  match update_loop (addrs s) d [] with
  | (d1, inr err) => (s, d1, Some err, [])
  | (d1, inl result) =>
      (mkAlertmanagerSet (addrs s) result, d1, None,
       [opLock; opWrite result; opUnlock])
  end.

(** [get] with these operations: the read is between the lock and the
    deferred unlock. *)
Definition get_locked (s : alertmanagerSet) : list URL * list SharedOp :=
  (current s, [opLock; opRead; opUnlock]).

(** The URLs one configured address contributes to a successful refresh:
    one per record, each with the scheme, user info and path of the parsed
    address; the records are the host itself when there is no query type,
    and an answer of the name service otherwise. *)
Definition expands_to {D} `{Resolver D} `{GoNet} (addr : string) (g : list URL) : Prop :=
  exists (u : URL) (recs : list string),
    url_Parse (fst (nameQtype addr)) = inl u
    /\ g = map (fun resolved => URL_lit (Scheme u) resolved (Path u) (User u)) recs
    /\ ((snd (nameQtype addr) = "" /\ recs = [Host u])
        \/ (snd (nameQtype addr) <> ""
            /\ exists d1 d2 : D,
                 Resolve d1 (resolveHost (Host u) (snd (nameQtype addr)))
                   (snd (nameQtype addr)) = (d2, inl recs))).

(** ** The notify callback *)

(** [rules.AlertState] and [rules.Alert] of Prometheus. *)
Inductive AlertState : Type := StateInactive | StatePending | StateFiring.

Definition AlertState_eqb (a b : AlertState) : bool :=
  match a, b with
  | StateInactive, StateInactive | StatePending, StatePending
  | StateFiring, StateFiring => true
  | _, _ => false
  end.

#[global] Instance AlertState_eq_dec : EqDecision AlertState.
Proof. solve_decision. Defined.

Definition Labels : Type := list (string * string).

Record rules_Alert : Type := mkRulesAlert {
  State : AlertState;
  ra_Labels : Labels;
  ra_Annotations : Labels;
  Value : Z; (* a float64 in Go; never read here *)
  ActiveAt : Time;
  FiredAt : Time;
  ResolvedAt : Time;
  LastSentAt : Time;
  ValidUntil : Time
}.

(** [alert.Alert], the notification object of the Thanos package [alert]. *)
Record alert_Alert : Type := mkAlert {
  a_Labels : Labels;
  a_Annotations : Labels;
  StartsAt : Time;
  EndsAt : Time;
  GeneratorURL : string
}.

(** [alert.Queue] with its method [Push], and
    [strutil.TableLinkForExpression]. *)
Class AlertQueue (Q : Type) : Type := {
  Push : Q -> list alert_Alert -> Q;
  TableLinkForExpression : string -> string
}.

(** One pass through the loop body of [notify] for an alert that is kept. *)
Definition notify_alert `{GoNet} {Q} `{AlertQueue Q}
    (alertQueryURL : URL) (expr : string) (alrt : rules_Alert) : alert_Alert :=
  let a :=
    mkAlert (ra_Labels alrt) (ra_Annotations alrt) (FiredAt alrt) Time_zero
      (URL_String alertQueryURL +:+ TableLinkForExpression expr) in
  if negb (IsZero (ResolvedAt alrt)) then
    mkAlert (a_Labels a) (a_Annotations a) (StartsAt a) (ResolvedAt alrt) (GeneratorURL a)
  else a.

Fixpoint notify_loop `{GoNet} {Q} `{AlertQueue Q}
    (alertQueryURL : URL) (expr : string)
    (alerts : list rules_Alert) (res : list alert_Alert) : list alert_Alert :=
  match alerts with
  | [] => res
  | alrt :: rest =>
      if AlertState_eqb (State alrt) StatePending then
        notify_loop alertQueryURL expr rest res
      else
        notify_loop alertQueryURL expr rest (res ++ [notify_alert alertQueryURL expr alrt])
  end.

Definition notify `{GoNet} {Q} `{AlertQueue Q}
    (alertQueryURL : URL) (alertQ : Q) (expr : string) (alerts : list rules_Alert) : Q :=
  Push alertQ (notify_loop alertQueryURL expr alerts []).

(** ** The file-SD update loop *)

(** [cache.Cache] with its method [Update]; [G] is [*targetgroup.Group]. *)
Class SDCache (C G : Type) : Type := {
  cache_Update : C -> list G -> C
}.

(** What the [select] of the loop can receive: a message on [fileSDUpdates]
    (a slice, [None] being the nil slice) or the end of [ctxUpdate]. *)
Inductive fileSDEvent (G : Type) : Type :=
| fileSDUpdate (update : option (list G))
| ctxUpdateDone.
Arguments fileSDUpdate {G} update.
Arguments ctxUpdateDone {G}.

(** The cache and the calls of [Update] made on it so far. *)
Record fileSDState (C G : Type) : Type := mkFileSDState {
  fileSDCache : C;
  updateCalls : list (list G)
}.
Arguments mkFileSDState {C G}.
Arguments fileSDCache {C G}.
Arguments updateCalls {C G}.

(** One turn of the loop on a received message. *)
Definition fileSD_recv {C G} `{SDCache C G}
    (st : fileSDState C G) (update : option (list G)) : fileSDState C G :=
  match update with
  | None => st
  | Some tgs => mkFileSDState (cache_Update (fileSDCache st) tgs) (updateCalls st ++ [tgs])
  end.

(** The loop, run on the events it receives; it returns (with [nil]) at the
    first [ctxUpdateDone] and is still running ([false]) when the events end
    before that. *)
Fixpoint fileSD_loop {C G} `{SDCache C G}
    (events : list (fileSDEvent G)) (st : fileSDState C G) : fileSDState C G * bool :=
  match events with
  | [] => (st, false)
  | fileSDUpdate update :: rest => fileSD_loop rest (fileSD_recv st update)
  | ctxUpdateDone :: _ => (st, true)
  end.

(** ** Rule groups and the rule managers ([thanosrule.Managers]) *)

Definition PartialResponseStrategy_eqb (a b : PartialResponseStrategy) : bool :=
  match a, b with
  | PartialResponseStrategy_WARN, PartialResponseStrategy_WARN
  | PartialResponseStrategy_ABORT, PartialResponseStrategy_ABORT => true
  | _, _ => false
  end.

(** A group as a rule file declares it: its strategy is optional. *)
Record GroupDecl : Type := mkGroupDecl {
  gd_Name : string;
  gd_strategy : option PartialResponseStrategy;
  gd_Rules : list string
}.

(** A live group: what [File()], [Name()] and [Rules()] give, and the alerts
    its alerting rules hold. *)
Record Group : Type := mkGroup {
  g_File : string;
  g_Name : string;
  g_Rules : list string;
  g_alerts : list rules_Alert
}.

(** [thanosrule.Managers]: one manager, with its group registry, per
    strategy. *)
Definition Managers : Type := list (PartialResponseStrategy * list Group).

(** The file system as the reload sees it: [filepath.Glob] and the rule-file
    parser. *)
Class RuleFS (FS : Type) : Type := {
  filepath_Glob : FS -> string -> list string + error;
  parseRuleFile : FS -> string -> list GroupDecl + error
}.

Fixpoint parseRuleFiles {FS} `{RuleFS FS} (fs : FS) (files : list string)
    : list (string * list GroupDecl) + error :=
  match files with
  | [] => inl []
  | fn :: rest =>
      match parseRuleFile fs fn with
      | inr err => inr err
      | inl decls =>
          match parseRuleFiles fs rest with
          | inr err => inr err
          | inl parsed => inl ((fn, decls) :: parsed)
          end
      end
  end.

Definition find_group (old : list Group) (file name : string) : option Group :=
  List.find (fun g => String.eqb (g_File g) file && String.eqb (g_Name g) name) old.

Definition strategy_of (d : GroupDecl) : PartialResponseStrategy :=
  default PartialResponseStrategy_ABORT (gd_strategy d).

(** The new registry of the manager bound to [s]. *)
Definition new_groups (s : PartialResponseStrategy) (old : list Group)
    (parsed : list (string * list GroupDecl)) : list Group :=
  flat_map
    (fun fd : string * list GroupDecl =>
       let (fn, decls) := fd in
       map (fun d =>
              mkGroup fn (gd_Name d) (gd_Rules d)
                (match find_group old fn (gd_Name d) with
                 | Some g => g_alerts g
                 | None => []
                 end))
           (List.filter (fun d => PartialResponseStrategy_eqb (strategy_of d) s) decls))
    parsed.

(** Modelled from the spec: [thanosrule.Managers.Update] belongs to the
    package [pkg/rule], which is not part of the sources at hand.  Section
    4.7 of the spec: each file is parsed into groups; each group's declared
    strategy (default ABORT) selects the owning manager; per manager the full
    group registry is replaced with the new set, groups that persist (same
    file and name) keep their alert state and added groups start empty; on
    any parse error the current state is left untouched. *)
Definition Managers_Update {FS} `{RuleFS FS} (fs : FS) (m : Managers)
    (dataDir : string) (evalInterval : Z) (files : list string)
    : Managers * option error :=
  match parseRuleFiles fs files with
  | inr err => (m, Some err)
  | inl parsed =>
      (map (fun sm : PartialResponseStrategy * list Group =>
              let (s, old) := sm in (s, new_groups s old parsed)) m,
       None)
  end.

(** ** The reload loop *)

(** The rule managers and the three reload metrics.  The gauges hold
    float64 values in Go: [configSuccess] is 0 or 1, and
    [configSuccessTime] is kept here as the [UnixNano] reading whose
    quotient by 1e9 the gauge is set to. *)
Record ReloadState : Type := mkReloadState {
  ruleMgrs : Managers;
  configSuccess : Z;
  configSuccessTime : Z;
  rulesLoaded : gmap (string * string * string) nat;
  reload_logs : list LogEntry
}.

(** The loop over the configured patterns: a bad pattern is logged and
    skipped. *)
Fixpoint glob_ruleFiles {FS} `{RuleFS FS} (fs : FS) (ruleFiles : list string)
    (files : list string) (lg : list LogEntry) : list string * list LogEntry :=
  match ruleFiles with
  | [] => (files, lg)
  | pat :: rest =>
      match filepath_Glob fs pat with
      | inr err =>
          glob_ruleFiles fs rest files
            (lg ++ [mkLog LevelError
                      [("msg", "retrieving rule files failed. Ignoring file.");
                       ("pattern", pat); ("err", Error err)]])
      | inl found => glob_ruleFiles fs rest (files ++ found) lg
      end
  end.

(** The two nested loops that stamp [rulesLoaded] after a [Reset]. *)
Definition stamp_rulesLoaded (m : Managers) : gmap (string * string * string) nat :=
  fold_left
    (fun acc (sm : PartialResponseStrategy * list Group) =>
       let (s, groups) := sm in
       fold_left
         (fun acc1 group =>
            <[(PartialResponseStrategy_String s, g_File group, g_Name group)
              := length (g_Rules group)]> acc1)
         groups acc)
    m ∅.

(** One reload event: the body of the loop after [<-reload].  [fs] is the
    file system and [now] the reading of [time.Now().UnixNano()] at that
    moment. *)
Definition reload_once {FS} `{RuleFS FS}
    (dataDir : string) (evalInterval : Z) (ruleFiles : list string)
    (fs : FS) (now : Z) (st : ReloadState) : ReloadState :=
  let lg0 :=
    reload_logs st ++
    [mkLog LevelDebug [("msg", "configured rule files");
                       ("files", strings_Join ruleFiles ",")]] in
  let '(files, lg1) := glob_ruleFiles fs ruleFiles [] lg0 in
  let lg2 :=
    lg1 ++ [mkLog LevelInfo [("msg", "reload rule files");
                             ("numFiles", pretty (length files))]] in
  match Managers_Update fs (ruleMgrs st) dataDir evalInterval files with
  | (m, Some err) =>
      mkReloadState m 0 (configSuccessTime st) (rulesLoaded st)
        (lg2 ++ [mkLog LevelError [("msg", "reloading rules failed");
                                   ("err", Error err)]])
  | (m, None) => mkReloadState m 1 now (stamp_rulesLoaded m) lg2
  end.

(** The loop, run on the events it receives: a reload event carries the file
    system and clock it meets; [None] is the close of [cancel], at which the
    loop returns. *)
Fixpoint reload_loop {FS} `{RuleFS FS}
    (dataDir : string) (evalInterval : Z) (ruleFiles : list string)
    (events : list (option (FS * Z))) (st : ReloadState) : ReloadState * option error :=
  match events with
  | [] => (st, None)
  | None :: _ => (st, Some (errors_New "canceled"))
  | Some (fs, now) :: rest =>
      reload_loop dataDir evalInterval ruleFiles rest
        (reload_once dataDir evalInterval ruleFiles fs now st)
  end.

(** ** Flags and start-up ([parseFlagLabels], [registerRule], [runRule]) *)

Definition is_letter (c : ascii) : bool :=
  let n := nat_of_ascii c in
  ((65 <=? n) && (n <=? 90) || (97 <=? n) && (n <=? 122) || (n =? 95))%nat.

Definition is_digit (c : ascii) : bool :=
  let n := nat_of_ascii c in ((48 <=? n) && (n <=? 57))%nat.

Fixpoint all_chars (p : ascii -> bool) (s : string) : bool :=
  match s with
  | EmptyString => true
  | String c r => p c && all_chars p r
  end.

(** [model.LabelName.IsValid]: a letter or underscore, then letters, digits
    and underscores. *)
Definition LabelName_IsValid (s : string) : bool :=
  match s with
  | EmptyString => false
  | String c r => is_letter c && all_chars (fun x => is_letter x || is_digit x) r
  end.

Fixpoint parseFlagLabels_loop `{GoNet} (s : list string) (lset : Labels) : Labels + error :=
  match s with
  | [] => inl lset
  | l :: rest =>
      match strings_SplitN2 l "=" with
      | [name; quoted] =>
          if negb (LabelName_IsValid name) then
            inr (errorString ("unsupported format for label " +:+ l))
          else
            match strconv_Unquote quoted with
            | inr err => inr (errors_Wrap err "unquote label value")
            | inl val => parseFlagLabels_loop rest (lset ++ [(name, val)])
            end
      | _ => inr (errorString ("unrecognized label " +:+ strconv_Quote l))
      end
  end.

Definition parseFlagLabels `{GoNet} (s : list string) : Labels + error :=
  parseFlagLabels_loop s [].

(** The flags of the rule command that the setup closure inspects before it
    calls [runRule]. *)
Record RuleFlags : Type := mkRuleFlags {
  labelStrs : list string;
  alertQueryURL : string;
  queries : list string;
  fileSDFiles : list string
}.

(** The loop over [*queries] with the map [lookupQueries]: the first address
    met a second time. *)
Fixpoint lookupQueries_scan (qs : list string) (lookupQueries : gset string) : option string :=
  match qs with
  | [] => None
  | q :: rest =>
      if decide (q ∈ lookupQueries) then Some q
      else lookupQueries_scan rest ({[q]} ∪ lookupQueries)
  end.

(** The loop of [runRule] over [queryAddrs]. *)
Fixpoint has_empty_addr (queryAddrs : list string) : bool :=
  match queryAddrs with
  | [] => false
  | addr :: rest => if String.eqb addr "" then true else has_empty_addr rest
  end.

(** What [runRule] does from [tsdb.Open] on: it opens the database, adds the
    actors to the run group [RG] and may fail.  [fileSD] tells whether a
    file discovery was built. *)
Class RuleRuntime (RG : Type) : Type := {
  runRule_start : RG -> Labels -> URL -> list string -> bool -> RG * option error
}.

(** [runRule] up to and including its check of the static addresses; the
    creation and registration of the metrics before it is left out. *)
Definition runRule {RG} `{RuleRuntime RG}
    (g : RG) (lset : Labels) (alertQueryURL : URL)
    (queryAddrs : list string) (fileSD : bool) : RG * option error :=
  if has_empty_addr queryAddrs then
    (g, Some (errors_New "static querier address cannot be empty"))
  else runRule_start g lset alertQueryURL queryAddrs fileSD.

(** The setup closure that [registerRule] stores under the command name. *)
Definition registerRule_setup `{GoNet} {RG} `{RuleRuntime RG}
    (flags : RuleFlags) (g : RG) : RG * option error :=
  match parseFlagLabels (labelStrs flags) with
  | inr err => (g, Some (errors_Wrap err "parse labels"))
  | inl lset =>
      match url_Parse (alertQueryURL flags) with
      | inr err => (g, Some (errors_Wrap err "parse alert query url"))
      | inl u =>
          match lookupQueries_scan (queries flags) ∅ with
          | Some q =>
              (g, Some (errorString ("Address " +:+ q +:+ " is duplicated for --query flag.")))
          | None =>
              let fileSD := (0 <? length (fileSDFiles flags))%nat in
              if negb fileSD && (length (queries flags) =? 0)%nat then
                (g, Some (errorString "No --query parameter was given."))
              else runRule g lset u (queries flags) fileSD
          end
      end
  end.

(** ** The refresh of the Alertmanager set (a loop of [runRule]) *)

(** The Alertmanager set with the counter and the log that the refresh
    closure of [runRule] writes to. *)
Record RefreshState : Type := mkRefreshState {
  alertmgrs : alertmanagerSet;
  alertMngrAddrResolutionErrors : nat;
  refresh_logs : list LogEntry
}.

(** The closure handed to [runutil.Repeat]: one refresh; a failure is logged
    and counted, and the closure returns nil either way. *)
Definition refresh_once {D} `{Resolver D} `{GoNet}
    (st : RefreshState) (d : D) : RefreshState * D :=
  match update (alertmgrs st) d with
  | (s, d1, Some err) =>
      (mkRefreshState s (S (alertMngrAddrResolutionErrors st))
         (refresh_logs st ++
          [mkLog LevelError [("msg", "refreshing alertmanagers failed");
                             ("err", Error err)]]),
       d1)
  | (s, d1, None) =>
      (mkRefreshState s (alertMngrAddrResolutionErrors st) (refresh_logs st), d1)
  end.

(** Any sequence of runs of the closure, as [runutil.Repeat] makes them one
    after the other; [ticks] gives the state of the name service each run
    meets. *)
Fixpoint refresh_runs {D} `{Resolver D} `{GoNet}
    (ticks : list D) (st : RefreshState) : RefreshState :=
  match ticks with
  | [] => st
  | d :: rest => refresh_runs rest (fst (refresh_once st d))
  end.

(** Whether the configured addresses all resolve in the state [d], and what
    they resolve to. *)
Definition resolves {D} `{Resolver D} `{GoNet} (configured : list string) (d : D) : bool :=
  match update_loop configured d [] with
  | (_, inl _) => true
  | (_, inr _) => false
  end.

Definition resolution {D} `{Resolver D} `{GoNet} (configured : list string) (d : D)
    : list URL :=
  match update_loop configured d [] with
  | (_, inl result) => result
  | (_, inr _) => []
  end.

(** ** The receive command ([registerReceive], [runReceive]) *)

(** [strings.Split(s, sep)] for a one-byte separator; [cur] is the piece
    being read. *)
Fixpoint strings_Split_go (sep : ascii) (s : string) (cur : string) : list string :=
  match s with
  | EmptyString => [cur]
  | String c r =>
      if Ascii.eqb c sep then cur :: strings_Split_go sep r EmptyString
      else strings_Split_go sep r (cur +:+ String c EmptyString)
  end.

Definition strings_Split (s : string) (sep : ascii) : list string :=
  strings_Split_go sep s EmptyString.

(** The block of the setup closure that settles [*local]: the flag value
    [local], the result of [os.Hostname()] and the remote-write address go
    in, the endpoint to use comes out. *)
Definition local_endpoint (local : string) (hostname : string) (herr : option error)
    (remoteWriteAddress : string) : outcome string :=
  if String.eqb local EmptyString then
    if String.eqb hostname EmptyString || negb (bool_decide (herr = None)) then
      Err (errors_New
             "--receive.local-endpoint is empty and host could not be determined.")
    else
      let parts := strings_Split remoteWriteAddress ":" in
      match parts !! (length parts - 1)%nat with
      | None => Panic "index out of range"
      | Some port => Ret ("http://" +:+ hostname +:+ ":" +:+ port +:+ "/api/v1/receive")
      end
  else Ret local.

(** The flags of the receive command that the setup closure inspects. *)
Record ReceiveFlags : Type := mkReceiveFlags {
  rf_labelStrs : list string;
  rf_hashringsFile : string;
  rf_local : string;
  rf_remoteWriteAddress : string
}.

(** [receive.NewConfigWatcher], [os.Hostname] and [runReceive] (which gets
    the labels, the watcher if any, and the endpoint). *)
Class ReceiveRuntime (RG CW : Type) : Type := {
  NewConfigWatcher : string -> CW + error;
  os_Hostname : string * option error;
  runReceive : RG -> Labels -> option CW -> string -> RG * outcome unit
}.

(** The setup closure that [registerReceive] stores under the command
    name. *)
Definition registerReceive_setup `{GoNet} {RG CW} `{ReceiveRuntime RG CW}
    (flags : ReceiveFlags) (g : RG) : RG * outcome unit :=
  match parseFlagLabels (rf_labelStrs flags) with
  | inr err => (g, Err (errors_Wrap err "parse labels"))
  | inl lset =>
      let watcher :=
        if negb (String.eqb (rf_hashringsFile flags) EmptyString) then
          match NewConfigWatcher (rf_hashringsFile flags) with
          | inr err => inr err
          | inl cw => inl (Some cw)
          end
        else inl None in
      match watcher with
      | inr err => (g, Err err)
      | inl cw =>
          match local_endpoint (rf_local flags) (fst os_Hostname) (snd os_Hostname)
                  (rf_remoteWriteAddress flags) with
          | Err e => (g, Err e)
          | Panic msg => (g, Panic msg)
          | Ret endpoint => runReceive g lset cw endpoint
          end
      end
  end.

(** The actor of [runReceive] that feeds the hashring to the web handler.
    It receives at most two hashrings: [events] lists what is offered to its
    [select]s, an update on [updates] or the close of [cancel]; its third
    step waits for [cancel] alone, so later updates are not taken.  The
    result is the calls of [webHandler.Hashring] made ([None] is the call
    with nil) and whether the actor has returned. *)
Inductive hashringEvent (H : Type) : Type :=
| hashringUpdate (h : H)
| hashringCancel.
Arguments hashringUpdate {H} h.
Arguments hashringCancel {H}.

Fixpoint hashring_wait_cancel {H} (events : list (hashringEvent H)) : bool :=
  match events with
  | [] => false
  | hashringCancel :: _ => true
  | hashringUpdate _ :: rest => hashring_wait_cancel rest
  end.

Definition hashring_actor {H} (events : list (hashringEvent H)) : list (option H) * bool :=
  match events with
  | [] => ([], false)
  | hashringCancel :: _ => ([], true)
  | hashringUpdate h :: rest =>
      match rest with
      | [] => ([Some h], false)
      | hashringCancel :: _ => ([Some h], true)
      | hashringUpdate _ :: rest1 => ([Some h; None], hashring_wait_cancel rest1)
      end
  end.

(** ** The object-store test harness ([objtesting.ForeachStore]) *)

(** What a run of [ForeachStore] does, in order: a subtest run, the close of
    a test bucket, a log line, or the fatal end of the test when a bucket
    cannot be created ([testutil.Ok] on the error). *)
Inductive TestEvent : Type :=
| tRun (name : string)
| tClose (name : string)
| tLog (msg : string)
| tFatal (name : string).

#[global] Instance TestEvent_eq_dec : EqDecision TestEvent.
Proof. solve_decision. Defined.

(** One optional block of the function: the variable that skips it, the
    name of its subtest and the name used in its log line. *)
Record OptionalStore : Type := mkOptionalStore {
  skip_var : string;
  subtest : string;
  log_name : string
}.

Definition optional_stores : list OptionalStore :=
  [mkOptionalStore "THANOS_SKIP_GCS_TESTS" "gcs" "GCS";
   mkOptionalStore "THANOS_SKIP_S3_AWS_TESTS" "aws s3" "S3 AWS";
   mkOptionalStore "THANOS_SKIP_AZURE_TESTS" "azure" "Azure";
   mkOptionalStore "THANOS_SKIP_SWIFT_TESTS" "swift" "swift";
   mkOptionalStore "THANOS_SKIP_TENCENT_COS_TESTS" "Tencent cos" "Tencent COS"].

(** The optional blocks still ahead.  [env] holds the variables that
    [os.LookupEnv] finds, [created] tells whether the test bucket of a
    store can be made, [testFn] whether the subtest on a store passes. *)
Fixpoint ForeachStore_optional (env : gset string) (created testFn : string -> bool)
    (stores : list OptionalStore) : list TestEvent :=
  match stores with
  | [] => []
  | s :: rest =>
      if decide (skip_var s ∈ env) then
        tLog (skip_var s +:+ " envvar present. Skipping test against "
              +:+ log_name s +:+ ".")
        :: ForeachStore_optional env created testFn rest
      else if negb (created (subtest s)) then [tFatal (subtest s)]
      else
        tRun (subtest s) :: tClose (subtest s)
        :: (if testFn (subtest s)
            then ForeachStore_optional env created testFn rest
            else [])
  end.

Definition ForeachStore (env : gset string) (created testFn : string -> bool)
    : list TestEvent :=
  tRun "inmem"
  :: (if testFn "inmem"
      then ForeachStore_optional env created testFn optional_stores
      else []).

(** ** A small concrete world for the examples *)

Module Fixture.

Definition dquote : string := String (ascii_of_nat 34) EmptyString.

Definition has_char (c : ascii) (s : string) : bool :=
  match cut c s with Some _ => true | None => false end.

(** A parser for URLs of the shapes [scheme://host], [scheme://host/path]
    and [host-less path]; a percent sign is taken as a bad escape. *)
Definition parse_url (s : string) : URL + error :=
  if has_char "%" s then inr (errorString "invalid URL escape")
  else
    match index 0 "://" s with
    | Some n =>
        let scheme := substring 0 n s in
        let rest := substring (n + 3) (String.length s - (n + 3)) s in
        match cut "/" rest with
        | Some (h, p) => inl (URL_lit scheme h ("/" +:+ p) None)
        | None => inl (URL_lit scheme rest "" None)
        end
    | None => inl (URL_lit "" "" s None)
    end.

Definition url_string (u : URL) : string :=
  (if String.eqb (Scheme u) "" then "" else Scheme u +:+ "://") +:+ Host u +:+ Path u.

Definition split_host_port (hostport : string) : (string * string) + error :=
  match cut ":" hostport with
  | Some hp => inl hp
  | None => inr (errorString "missing port in address")
  end.

Definition unquote (s : string) : string + error :=
  match s with
  | String c r =>
      if Ascii.eqb c (ascii_of_nat 34) then
        match cut (ascii_of_nat 34) r with
        | Some (v, EmptyString) => inl v
        | _ => inr (errorString "invalid syntax")
        end
      else inr (errorString "invalid syntax")
  | EmptyString => inr (errorString "invalid syntax")
  end.

Definition net : GoNet := {|
  url_Parse := parse_url;
  URL_String := url_string;
  net_SplitHostPort := split_host_port;
  strconv_Quote := fun s => dquote +:+ s +:+ dquote;
  strconv_Unquote := unquote
|}.

(** Query servers: the world counts the requests it has seen; a host
    called [down:9090] refuses, [partial:9090] answers 7 with a warning,
    every other host answers 1. *)
Definition prom : PromClient nat Z := {|
  PromqlQueryInstant := fun w u _ _ _ =>
    (S w,
     if String.eqb (Host u) "down:9090" then inr (errorString "connection refused")
     else if String.eqb (Host u) "partial:9090"
          then inl (7%Z, ["store gateway X unreachable"])
          else inl (1%Z, []))
|}.

Definition st0 (addrs : list string) : EvalState nat Z :=
  mkEvalState addrs 0%nat 0%nat ∅ [] [].

Definition t0 : Time := mkTime 63700000000 0 None.

(** A name service: [am.example:9093] has two A records, nothing else
    resolves. *)
Definition resolver : Resolver unit := {|
  Resolve := fun d name qtype =>
    (d,
     if String.eqb name "am.example:9093" && String.eqb qtype dns_A
     then inl ["10.0.0.1:9093"; "10.0.0.2:9093"]
     else inr (errorString "no such host"))
|}.

Definition queue : AlertQueue (list alert_Alert) := {|
  Push := fun q alerts => q ++ alerts;
  TableLinkForExpression := fun expr => "/graph?g0.expr=" +:+ expr
|}.

(** A cache that keeps the targets of the last message. *)
Definition sdcache : SDCache (list string) (list string) := {|
  cache_Update := fun _ tgs => concat tgs
|}.

(** A file system: file name to what the parser makes of it; a pattern
    matches the file of that name. *)
Definition rulefs : RuleFS (list (string * (list GroupDecl + error))) := {|
  filepath_Glob := fun fs pat =>
    inl (map fst (List.filter (fun f => String.eqb (fst f) pat) fs));
  parseRuleFile := fun fs fn =>
    match List.find (fun f => String.eqb (fst f) fn) fs with
    | Some f => snd f
    | None => inr (errorString "no such file")
    end
|}.

Definition good_fs : list (string * (list GroupDecl + error)) :=
  [("a.yaml", inl [mkGroupDecl "G1" None ["up == 0"]])].

Definition bad_fs : list (string * (list GroupDecl + error)) :=
  [("a.yaml", inr (errorString "yaml: line 1: did not find expected key"))].

Definition live : ReloadState :=
  mkReloadState
    [(PartialResponseStrategy_WARN, []);
     (PartialResponseStrategy_ABORT, [mkGroup "a.yaml" "G1" ["up == 0"] []])]
    1 1500000000000000000
    {[("ABORT", "a.yaml", "G1") := 1%nat]} [].

(** A run group is the list of its actors; the rest of [runRule] adds
    them all. *)
Definition runtime : RuleRuntime (list string) := {|
  runRule_start := fun g _ _ _ _ => (g ++ ["tsdb"; "rule managers"; "grpc"; "http"], None)
|}.

(** A name service for two moments: in the state [true] the service
    answers as [resolver] does, in the state [false] it is down. *)
Definition flaky : Resolver bool := {|
  Resolve := fun d name qtype =>
    (d,
     if d && String.eqb name "am.example:9093" && String.eqb qtype dns_A
     then inl ["10.0.0.1:9093"; "10.0.0.2:9093"]
     else inr (errorString "no such host"))
|}.

(** A receive runtime whose host is called [node-1]; the run group is the
    list of endpoints [runReceive] was started with. *)
Definition receive : ReceiveRuntime (list string) unit := {|
  NewConfigWatcher := fun _ => inl tt;
  os_Hostname := ("node-1", None);
  runReceive := fun g _ _ endpoint => (g ++ [endpoint], Ret tt)
|}.

(** A name service that knows one SRV name. *)
Definition srv : Resolver unit := {|
  Resolve := fun d name qtype =>
    (d,
     if String.eqb name "_am._tcp.example" && String.eqb qtype dns_SRV
     then inl ["am1.example:9093"; "am2.example:9094"]
     else inr (errorString "no such host"))
|}.

End Fixture.

(** * Properties *)

(** ** Strings *)

Lemma cut_Some (sep : ascii) (s a b : string) :
  cut sep s = Some (a, b) -> s = a +:+ String sep b.
Proof.
  revert a b. induction s as [|c s IH]; simpl; intros a b Hc; [discriminate|].
  destruct (Ascii.eqb c sep) eqn:Hcs.
  - apply Ascii.eqb_eq in Hcs. inversion Hc; subst. reflexivity.
  - destruct (cut sep s) as [[x y]|]; [|discriminate].
    inversion Hc; subst.
    change (String c x +:+ String sep b) with (String c (x +:+ String sep b)).
    f_equal. apply IH. reflexivity.
Qed.

Lemma cut_Some_first (sep : ascii) (s a b : string) :
  cut sep s = Some (a, b) -> cut sep a = None.
Proof.
  revert a b. induction s as [|c s IH]; simpl; intros a b Hc; [discriminate|].
  destruct (Ascii.eqb c sep) eqn:Hcs.
  - inversion Hc; subst. reflexivity.
  - destruct (cut sep s) as [[x y]|]; [|discriminate].
    inversion Hc; subst. simpl. rewrite Hcs, (IH _ _ eq_refl). reflexivity.
Qed.

Lemma cut_first (sep : ascii) (a b : string) :
  cut sep a = None -> cut sep (a +:+ String sep b) = Some (a, b).
Proof.
  induction a as [|c a IH]; intros Hn.
  - simpl. rewrite Ascii.eqb_refl. reflexivity.
  - change (String c a +:+ String sep b) with (String c (a +:+ String sep b)).
    simpl in *. destruct (Ascii.eqb c sep); [discriminate|].
    destruct (cut sep a) as [[x y]|]; [discriminate|].
    rewrite IH by reflexivity. reflexivity.
Qed.

Lemma cut_None_no_sep (sep : ascii) (s : string) :
  cut sep s = None <-> forall a b : string, s <> a +:+ String sep b.
Proof.
  split.
  - intros Hn a b ->. assert (Ha : cut sep a = None).
    { clear -Hn. induction a as [|c a IH]; [reflexivity|].
      change (String c a +:+ String sep b) with (String c (a +:+ String sep b)) in Hn.
      simpl in *. destruct (Ascii.eqb c sep); [discriminate|].
      destruct (cut sep (a +:+ String sep b)) as [[x y]|]; [discriminate|].
      rewrite IH by reflexivity. reflexivity. }
    rewrite (cut_first sep a b Ha) in Hn. discriminate.
  - intros Hno. destruct (cut sep s) as [[a b]|] eqn:Hc; [|reflexivity].
    apply cut_Some in Hc. exfalso. exact (Hno a b Hc).
Qed.

(** ** The remote query function *)

Section QueryFunc.
Context {World Vector : Type} {PC : PromClient World Vector} {GN : GoNet}.

Lemma removeDuplicateQueryAddrs_scan_frame
    (addrs : list string) (set : gset string) (st : EvalState World Vector) :
  let st' := snd (removeDuplicateQueryAddrs_scan addrs set st) in
  dnsProvider_Addresses st' = dnsProvider_Addresses st
  /\ world st' = world st
  /\ ruleEvalWarnings st' = ruleEvalWarnings st
  /\ requests st' = requests st.
Proof.
  revert set st. induction addrs as [|a rest IH]; intros set st; simpl; [tauto|].
  specialize (IH ({[a]} ∪ set)).
  destruct (decide (a ∈ set)).
  - match goal with |- context [removeDuplicateQueryAddrs_scan rest _ ?s] =>
      specialize (IH s) end.
    simpl in IH. exact IH.
  - apply IH.
Qed.

Lemma removeDuplicateQueryAddrs_frame (st : EvalState World Vector) (addrs : list string) :
  let st' := snd (removeDuplicateQueryAddrs st addrs) in
  dnsProvider_Addresses st' = dnsProvider_Addresses st
  /\ world st' = world st
  /\ ruleEvalWarnings st' = ruleEvalWarnings st
  /\ requests st' = requests st.
Proof.
  unfold removeDuplicateQueryAddrs.
  pose proof (removeDuplicateQueryAddrs_scan_frame addrs ∅ st) as Hf.
  destruct (removeDuplicateQueryAddrs_scan addrs ∅ st) as [set st1]. exact Hf.
Qed.

Lemma queryFunc_loop_trace (s : PartialResponseStrategy) (addrs : list string)
    (q : string) (t : Time) (perm : list nat) :
  Forall (fun i => (i < length addrs)%nat) perm ->
  forall (st st' : EvalState World Vector) (r : outcome Vector),
    queryFunc_loop s addrs q t perm st = (st', r) ->
    exists calls : list (Call Vector),
      requests st' = requests st ++ calls
      /\ answered (world st) calls (world st')
      /\ Forall2 (call_of_index s addrs q t) (take (length calls) perm) calls
      /\ loop_exit s addrs perm st st' r calls.
Proof.
  induction perm as [|i rest IH]; intros Hb st st' r Heq; simpl in Heq.
  - inversion Heq; subst. exists []. rewrite app_nil_r.
    repeat split; [constructor|]. right; left. repeat split. constructor.
  - inversion Hb as [|? ? Hi Hrest]; subst.
    destruct (addrs !! i) as [addr|] eqn:Ha.
    2: { apply lookup_ge_None in Ha. lia. }
    destruct (url_Parse ("http://" +:+ addr)) as [u|perr] eqn:Hp.
    + destruct (PromqlQueryInstant (world st) u q t (mkQueryOptions true s))
        as [w res] eqn:Hq.
      destruct res as [[v warns]|err].
      * inversion Heq; subst; clear Heq.
        exists [mkCall (mkRequest (spanID s) u q t (mkQueryOptions true s)) (inl (v, warns))].
        split; [destruct (0 <? length warns)%nat; reflexivity|].
        split.
        { simpl. exists w. split; [exact Hq|].
          destruct (0 <? length warns)%nat; reflexivity. }
        split.
        { simpl. constructor; [|constructor]. exists addr, u. auto. }
        left. exists v, warns, [], (mkCall (mkRequest (spanID s) u q t (mkQueryOptions true s)) (inl (v, warns))).
        repeat split; [constructor|].
        destruct (0 <? length warns)%nat; reflexivity.
      * apply (IH Hrest) in Heq. destruct Heq as (calls & Hreq & Hans & Hidx & Hexit).
        simpl in Hreq, Hans, Hexit.
        set (c := mkCall (mkRequest (spanID s) u q t (mkQueryOptions true s))
                    (@inr (Vector * list string) error err)) in *.
        exists (c :: calls).
        split; [rewrite Hreq, <- app_assoc; reflexivity|].
        split; [simpl; exists w; split; [exact Hq|exact Hans]|].
        split.
        { simpl. constructor; [|exact Hidx]. exists addr, u. auto. }
        assert (Hc : call_failed c) by (exists err; reflexivity).
        destruct Hexit as [(v & warns & init & c' & -> & -> & Hin & Hres & Hw)
                          |[(-> & Hlen & Hall & Hw)
                           |(j & a' & e' & Hj & Ha' & Hp' & -> & Hall & Hw)]].
        -- left. exists v, warns, (c :: init), c'. repeat split; auto.
        -- right; left. simpl. repeat split; auto.
        -- right; right. exists j, a', e'. simpl. repeat split; auto.
    + inversion Heq; subst; clear Heq. exists []. rewrite app_nil_r.
      repeat split; [constructor|].
      right; right. exists i, addr, perr. simpl. repeat split; auto.
Qed.

Lemma perm_indices_bounded (perm : list nat) (n : nat) :
  perm ≡ₚ seq 0 n -> Forall (fun i => (i < n)%nat) perm.
Proof.
  intros Hp. apply Forall_forall. intros i Hi.
  rewrite Hp in Hi. apply elem_of_seq in Hi. lia.
Qed.

Lemma perm_indices_NoDup (perm : list nat) (n k : nat) :
  perm ≡ₚ seq 0 n -> NoDup (take k perm).
Proof.
  intros Hp. eapply sublist_NoDup; [|apply sublist_take].
  rewrite Hp. apply NoDup_seq.
Qed.

Lemma queryFunc_trace (s : PartialResponseStrategy) (perm : list nat)
    (st st' : EvalState World Vector) (q : string) (t : Time) (r : outcome Vector) :
  perm ≡ₚ seq 0 (length (dnsProvider_Addresses st)) ->
  queryFunc s perm st q t = (st', r) ->
  exists calls : list (Call Vector),
    requests st' = requests st ++ calls
    /\ answered (world st) calls (world st')
    /\ Forall2 (call_of_index s (dnsProvider_Addresses st) q t)
         (take (length calls) perm) calls
    /\ loop_exit s (dnsProvider_Addresses st) perm st st' r calls.
Proof.
  intros Hperm Heq. unfold queryFunc in Heq.
  pose proof (removeDuplicateQueryAddrs_frame st (dnsProvider_Addresses st)) as Hf.
  destruct (removeDuplicateQueryAddrs st (dnsProvider_Addresses st)) as [dedup st1].
  simpl in Hf. destruct Hf as (_ & Hw & Hc & Hr).
  apply queryFunc_loop_trace in Heq; [|apply perm_indices_bounded, Hperm].
  destruct Heq as (calls & Hreq & Hans & Hidx & Hexit).
  exists calls. rewrite <- Hr, <- Hw. repeat split; auto.
  unfold loop_exit in *. rewrite <- Hc. exact Hexit.
Qed.

(** C4.  One call of the query function, for any snapshot (so for every
    non-empty one) and any permutation [perm] drawn by [rand.Perm].  The
    calls it makes go, one per index and in the order of [perm], to the
    addresses of the snapshot, and they are what the servers answered.
    After a failed call (transport error or non-2xx, an error of
    [PromqlQueryInstant]) the loop goes on to the next index.  The first
    call that succeeds is the last call made and its vector is returned
    with a nil error.  When the call for every index has failed the
    result is the error "no query peer reachable".  (The loop has a third
    exit, which concerns none of these cases: an address that [url.Parse]
    rejects ends the call with a "url parse" error before any request to
    it.) *)
Theorem queryFunc_retries_in_permutation_order
    (s : PartialResponseStrategy) (perm : list nat)
    (st st' : EvalState World Vector) (q : string) (t : Time) (r : outcome Vector) :
  perm ≡ₚ seq 0 (length (dnsProvider_Addresses st)) ->
  queryFunc s perm st q t = (st', r) ->
  exists calls : list (Call Vector),
    requests st' = requests st ++ calls
    /\ answered (world st) calls (world st')
    /\ NoDup (take (length calls) perm)
    /\ Forall2 (call_of_index s (dnsProvider_Addresses st) q t)
         (take (length calls) perm) calls
    /\ ((exists v warns init c,
           r = Ret v /\ calls = init ++ [c] /\ Forall call_failed init
           /\ call_result c = inl (v, warns))
        \/ (r = Err (errorString "no query peer reachable")
            /\ length calls = length (dnsProvider_Addresses st)
            /\ Forall call_failed calls)
        \/ (exists i addr err,
              perm !! length calls = Some i
              /\ dnsProvider_Addresses st !! i = Some addr
              /\ url_Parse ("http://" +:+ addr) = inr err
              /\ r = Err (errors_Wrap err ("url parse " +:+ addr))
              /\ Forall call_failed calls)).
Proof.
  intros Hperm Heq.
  destruct (queryFunc_trace s perm st st' q t r Hperm Heq)
    as (calls & Hreq & Hans & Hidx & Hexit).
  exists calls. repeat split; auto.
  - eapply perm_indices_NoDup, Hperm.
  - destruct Hexit as [(v & warns & init & c & -> & -> & Hin & Hres & _)
                      |[(-> & Hlen & Hall & _)
                       |(j & a & e & Hj & Ha & Hp & -> & Hall & _)]].
    + left. exists v, warns, init, c. auto.
    + right; left. repeat split; auto.
      rewrite Hlen, Hperm. apply length_seq.
    + right; right. exists j, a, e. auto.
Qed.

(** C5.  With an empty snapshot the query function returns the error
    "no query peer reachable"; it makes no call and leaves the world, the
    metrics and the log as they were. *)
Theorem queryFunc_empty_snapshot
    (s : PartialResponseStrategy) (perm : list nat)
    (st : EvalState World Vector) (q : string) (t : Time) :
  dnsProvider_Addresses st = [] ->
  perm ≡ₚ seq 0 (length (dnsProvider_Addresses st)) ->
  queryFunc s perm st q t = (st, Err (errorString "no query peer reachable")).
Proof.
  intros He Hperm. rewrite He in Hperm. simpl in Hperm.
  apply Permutation_nil_r in Hperm. subst perm.
  unfold queryFunc. rewrite He. reflexivity.
Qed.

(** C2, as amended.  The counter vector after one call of the query
    function: when the call returns a vector whose response carried at
    least one warning, the child labelled with the lower-cased name of the
    strategy ("warn" for WARN, "abort" for ABORT) has grown by one and
    every other child is as before; in every other case (a response
    without warnings, or an error) the vector is unchanged. *)
Theorem queryFunc_warning_counter
    (s : PartialResponseStrategy) (perm : list nat)
    (st st' : EvalState World Vector) (q : string) (t : Time) (r : outcome Vector) :
  perm ≡ₚ seq 0 (length (dnsProvider_Addresses st)) ->
  queryFunc s perm st q t = (st', r) ->
  strategy_label s =
    match s with
    | PartialResponseStrategy_WARN => "warn"
    | PartialResponseStrategy_ABORT => "abort"
    end
  /\ match r with
     | Ret v =>
         exists c warns,
           last (requests st') = Some c /\ call_result c = inl (v, warns)
           /\ forall l : string,
                CounterVec_get l (ruleEvalWarnings st') =
                  if decide (warns <> [] /\ l = strategy_label s)
                  then S (CounterVec_get l (ruleEvalWarnings st))
                  else CounterVec_get l (ruleEvalWarnings st)
     | _ => ruleEvalWarnings st' = ruleEvalWarnings st
     end.
Proof.
  intros Hperm Heq. split; [destruct s; reflexivity|].
  destruct (queryFunc_trace s perm st st' q t r Hperm Heq)
    as (calls & Hreq & _ & _ & Hexit).
  destruct Hexit as [(v & warns & init & c & -> & -> & _ & Hres & Hw)
                    |[(-> & _ & _ & Hw)
                     |(j & a & e & _ & _ & _ & -> & _ & Hw)]]; auto.
  exists c, warns. split; [rewrite Hreq, app_assoc; apply last_snoc|].
  split; [exact Hres|]. intros l. rewrite Hw.
  destruct (decide (warns <> [] /\ l = strategy_label s)) as [[Hn ->]|Hd].
  - destruct warns as [|w0 warns]; [congruence|]. simpl.
    unfold CounterVec_get, CounterVec_Inc. rewrite lookup_insert_eq. reflexivity.
  - destruct warns as [|w0 warns]; simpl; [reflexivity|].
    unfold CounterVec_get, CounterVec_Inc.
    rewrite lookup_insert_ne; [reflexivity|]. intros <-. apply Hd. split; congruence.
Qed.

End QueryFunc.

(** C1 (the code departs from the claim).  The provider's snapshot holds
    the address [down:9090] twice and the server refuses every request.
    [removeDuplicateQueryAddrs] counts the duplicate and builds the list
    without it, but [queryFunc] drops that list and walks the snapshot
    itself: the same address is requested twice in one call. *)
Theorem queryFunc_requests_duplicate_twice :
  let st := Fixture.st0 ["down:9090"; "down:9090"] in
  let '(st', r) := @queryFunc _ _ Fixture.prom Fixture.net PartialResponseStrategy_ABORT [0; 1]%nat st "up" Fixture.t0 in
  fst (removeDuplicateQueryAddrs st (dnsProvider_Addresses st)) = ["down:9090"]
  /\ attempted (requests st') = ["down:9090"; "down:9090"]
  /\ duplicatedQuery st' = 1%nat
  /\ r = Err (errorString "no query peer reachable").
Proof. vm_compute. repeat split. Qed.

Lemma queryFunc_retries_in_permutation_order_witness :
  let st := Fixture.st0 ["down:9090"; "q1:9090"; "q2:9090"] in
  let perm := [0; 2; 1]%nat in
  let res := @queryFunc _ _ Fixture.prom Fixture.net
               PartialResponseStrategy_ABORT perm st "up" Fixture.t0 in
  perm ≡ₚ seq 0 (length (dnsProvider_Addresses st))
  /\ snd res = Ret 1%Z
  /\ attempted (requests (fst res)) = ["down:9090"; "q2:9090"]
  /\ exists calls : list (Call Z),
       requests (fst res) = requests st ++ calls
       /\ NoDup (take (length calls) perm).
Proof.
  intros st perm res.
  assert (Hperm : perm ≡ₚ seq 0 (length (dnsProvider_Addresses st)))
    by (apply perm_skip, perm_swap).
  split; [exact Hperm|]. split; [reflexivity|]. split; [reflexivity|].
  destruct (@queryFunc_retries_in_permutation_order _ _ Fixture.prom Fixture.net
              PartialResponseStrategy_ABORT perm st (fst res) "up" Fixture.t0 (snd res)
              Hperm (surjective_pairing res))
    as (calls & Hreq & _ & Hnd & _).
  exists calls. split; [exact Hreq|exact Hnd].
Defined.

Lemma queryFunc_empty_snapshot_witness :
  let st := Fixture.st0 [] in
  dnsProvider_Addresses st = []
  /\ [] ≡ₚ seq 0 (length (dnsProvider_Addresses st))
  /\ @queryFunc _ _ Fixture.prom Fixture.net
       PartialResponseStrategy_WARN [] st "up" Fixture.t0
     = (st, Err (errorString "no query peer reachable")).
Proof.
  intros st. split; [reflexivity|]. split; [reflexivity|].
  apply (@queryFunc_empty_snapshot _ _ Fixture.prom Fixture.net
           PartialResponseStrategy_WARN [] st "up" Fixture.t0);
    reflexivity.
Defined.

(** C2, the claim as stated fails: under ABORT a response with a warning
    is counted too, on the child "abort". *)
Lemma queryFunc_abort_counts_warnings :
  let st := Fixture.st0 ["partial:9090"] in
  let '(st', r) := @queryFunc _ _ Fixture.prom Fixture.net
                     PartialResponseStrategy_ABORT [0]%nat st "up" Fixture.t0 in
  r = Ret 7%Z
  /\ (exists c, last (requests st') = Some c
               /\ call_result c = inl (7%Z, ["store gateway X unreachable"]))
  /\ CounterVec_get "abort" (ruleEvalWarnings st') = 1%nat
  /\ CounterVec_get "abort" (ruleEvalWarnings st) = 0%nat
  /\ ~ (CounterVec_total (ruleEvalWarnings st') <> CounterVec_total (ruleEvalWarnings st)
        <-> PartialResponseStrategy_ABORT = PartialResponseStrategy_WARN).
Proof.
  vm_compute. split; [reflexivity|]. split; [eexists; split; reflexivity|].
  split; [reflexivity|]. split; [reflexivity|].
  intros [Hinc _]. assert (Hne : 1%nat <> 0%nat) by discriminate.
  specialize (Hinc Hne). discriminate Hinc.
Qed.

Lemma queryFunc_warning_counter_witness :
  let st := Fixture.st0 ["partial:9090"] in
  let res := @queryFunc _ _ Fixture.prom Fixture.net
               PartialResponseStrategy_ABORT [0]%nat st "up" Fixture.t0 in
  [0]%nat ≡ₚ seq 0 (length (dnsProvider_Addresses st))
  /\ snd res = Ret 7%Z
  /\ CounterVec_get "abort" (ruleEvalWarnings (fst res)) = 1%nat
  /\ CounterVec_get "warn" (ruleEvalWarnings (fst res)) = 0%nat.
Proof.
  intros st res.
  assert (Hperm : [0]%nat ≡ₚ seq 0 (length (dnsProvider_Addresses st))) by reflexivity.
  split; [exact Hperm|]. split; [reflexivity|].
  destruct (@queryFunc_warning_counter _ _ Fixture.prom Fixture.net
              PartialResponseStrategy_ABORT [0]%nat st (fst res) "up" Fixture.t0 (snd res)
              Hperm (surjective_pairing res))
    as (_ & Hcount).
  change (snd res) with (@Ret Z 7%Z) in Hcount.
  destruct Hcount as (c & warns & Hlast & Hres & Hget).
  injection Hlast as <-. injection Hres as <-.
  split; [rewrite (Hget "abort")|rewrite (Hget "warn")]; reflexivity.
Defined.

(** ** The Alertmanager set *)

Lemma nameQtype_dns (rest : string) : nameQtype ("dns+" +:+ rest) = (rest, dns_A).
Proof. reflexivity. Qed.

Lemma nameQtype_unprefixed (addr : string) :
  (forall a b : string, addr <> a +:+ "+" +:+ b) -> nameQtype addr = (addr, "").
Proof.
  intros Hno. unfold nameQtype, strings_SplitN2.
  destruct (cut "+" addr) as [[a b]|] eqn:Hc; [|reflexivity].
  apply cut_Some in Hc. exfalso. apply (Hno a b). exact Hc.
Qed.

Lemma defaultAlertmanagerPort_text : ":" +:+ strconv_Itoa defaultAlertmanagerPort = ":9093".
Proof. vm_compute. reflexivity. Qed.

Section AlertmanagerSet.
Context {D : Type} {RS : Resolver D} {GN : GoNet}.

Lemma update_loop_success (todo : list string) :
  forall (d d' : D) (result res : list URL),
    update_loop todo d result = (d', inl res) ->
    exists groups : list (list URL),
      res = result ++ concat groups /\ Forall2 expands_to todo groups.
Proof.
  induction todo as [|addr rest IH]; intros d d' result res Heq; simpl in Heq.
  - inversion Heq; subst. exists []. simpl. rewrite app_nil_r. split; constructor.
  - unfold expands_to at 1.
    destruct (nameQtype addr) as [name qtype] eqn:Hnq.
    destruct (url_Parse name) as [u|perr] eqn:Hp; [|discriminate].
    destruct (String.eqb qtype "") eqn:Hq; simpl in Heq.
    + apply String.eqb_eq in Hq. subst qtype.
      apply IH in Heq. destruct Heq as (groups & -> & Hall).
      exists ([URL_lit (Scheme u) (Host u) (Path u) (User u)] :: groups).
      split; [simpl; rewrite <- app_assoc; reflexivity|].
      constructor; [|exact Hall].
      exists u, [Host u]. rewrite Hnq. simpl. auto.
    + apply String.eqb_neq in Hq.
      destruct (Resolve d (resolveHost (Host u) qtype) qtype) as [d1 [recs|rerr]] eqn:Hr;
        [|discriminate].
      apply IH in Heq. destruct Heq as (groups & -> & Hall).
      exists (map (fun resolved => URL_lit (Scheme u) resolved (Path u) (User u)) recs
              :: groups).
      split; [simpl; rewrite <- app_assoc; reflexivity|].
      constructor; [|exact Hall].
      exists u, recs. rewrite Hnq. simpl. split; [exact Hp|]. split; [reflexivity|].
      right. split; [exact Hq|]. exists d, d1. exact Hr.
Qed.

Lemma nameQtype_prefixed (qtype name : string) :
  (forall a b : string, qtype <> a +:+ "+" +:+ b) ->
  nameQtype (qtype +:+ "+" +:+ name) = (name, qtype).
Proof.
  intros Hno. unfold nameQtype, strings_SplitN2.
  change (qtype +:+ "+" +:+ name) with (qtype +:+ String "+" name).
  rewrite (cut_first "+" qtype name); [reflexivity|].
  apply (cut_None_no_sep "+"), Hno.
Qed.

Lemma resolveHost_dns (host : string) :
  resolveHost host "dns" =
  match net_SplitHostPort host with
  | inr _ => host +:+ ":9093"
  | inl _ => host
  end.
Proof.
  unfold resolveHost. rewrite String.eqb_refl.
  destruct (net_SplitHostPort host); [reflexivity|].
  rewrite defaultAlertmanagerPort_text. reflexivity.
Qed.

Lemma resolveHost_other (host : string) (qtype : QType) :
  qtype <> "dns" -> resolveHost host qtype = host.
Proof.
  intros Hq. unfold resolveHost. apply String.eqb_neq in Hq.
  change dns_A with "dns". rewrite Hq. reflexivity.
Qed.

(** One turn of the loop of [update], as an equation. *)
Lemma update_loop_cons (addr : string) (rest : list string) (d : D) (result : list URL) :
  update_loop (addr :: rest) d result =
  match url_Parse (fst (nameQtype addr)) with
  | inr err =>
      (d, inr (errors_Wrap err ("parse URL " +:+ strconv_Quote (fst (nameQtype addr)))))
  | inl u =>
      if negb (String.eqb (snd (nameQtype addr)) "") then
        match Resolve d (resolveHost (Host u) (snd (nameQtype addr)))
                (snd (nameQtype addr)) with
        | (d1, inr err) => (d1, inr (errors_Wrap err "alertmanager resolve"))
        | (d1, inl resolvedDomain) =>
            update_loop rest d1
              (result ++
               map (fun resolved => URL_lit (Scheme u) resolved (Path u) (User u))
                   resolvedDomain)
        end
      else
        update_loop rest d
          (result ++
           map (fun resolved => URL_lit (Scheme u) resolved (Path u) (User u))
               [Host u])
  end.
Proof. simpl. destruct (nameQtype addr) as [name qtype]. reflexivity. Qed.

Lemma address_expansion_run
    (d : D) (addr : string) (g : list URL) (d1 : D)
    (rest : list string) (result : list URL) :
  address_expansion d addr g d1 ->
  update_loop (addr :: rest) d result = update_loop rest d1 (result ++ g).
Proof.
  intros (u & recs & -> & Hcase). rewrite update_loop_cons.
  destruct Hcase as [(Hno & Hp & -> & ->)
                    |(qtype & name & -> & Hno & Hp & Hq)].
  - rewrite (nameQtype_unprefixed addr Hno). cbn [fst snd]. rewrite Hp. reflexivity.
  - rewrite (nameQtype_prefixed qtype name Hno). cbn [fst snd]. rewrite Hp.
    destruct Hq as [(-> & -> & ->)|[(-> & Hr)|(Hne & Hnd & Hr)]].
    + reflexivity.
    + rewrite resolveHost_dns, Hr. reflexivity.
    + apply String.eqb_neq in Hne. rewrite Hne. cbn [negb].
      rewrite (resolveHost_other _ _ Hnd), Hr. reflexivity.
Qed.

Lemma address_failure_run
    (d : D) (addr : string) (d1 : D) (err : error)
    (rest : list string) (result : list URL) :
  address_failure d addr d1 err ->
  update_loop (addr :: rest) d result = (d1, inr err).
Proof.
  intros Hf. rewrite update_loop_cons.
  destruct Hf as [(name & perr & Hname & Hp & -> & ->)
                 |(qtype & name & u & rerr & -> & Hno & Hp & Hq & ->)].
  - destruct Hname as [(Hno & ->)|(qtype & -> & Hno)].
    + rewrite (nameQtype_unprefixed addr Hno). cbn [fst snd]. rewrite Hp. reflexivity.
    + rewrite (nameQtype_prefixed qtype name Hno). cbn [fst snd]. rewrite Hp.
      reflexivity.
  - rewrite (nameQtype_prefixed qtype name Hno). cbn [fst snd]. rewrite Hp.
    destruct Hq as [(-> & Hr)|(Hne & Hnd & Hr)].
    + rewrite resolveHost_dns, Hr. reflexivity.
    + apply String.eqb_neq in Hne. rewrite Hne. cbn [negb].
      rewrite (resolveHost_other _ _ Hnd), Hr. reflexivity.
Qed.

(** In any state an address either expands or fails. *)
Lemma address_expands_or_fails (d : D) (addr : string) :
  (exists (g : list URL) (d1 : D), address_expansion d addr g d1)
  \/ (exists (d1 : D) (err : error), address_failure d addr d1 err).
Proof.
  destruct (cut "+" addr) as [[qtype name]|] eqn:Hc.
  - assert (Haddr : addr = qtype +:+ "+" +:+ name) by (apply cut_Some, Hc).
    assert (Hno : forall a b : string, qtype <> a +:+ "+" +:+ b)
      by (apply (cut_None_no_sep "+"), (cut_Some_first "+" addr qtype name Hc)).
    destruct (url_Parse name) as [u|perr] eqn:Hp.
    2: { right. exists d, (withMessage perr ("parse URL " +:+ strconv_Quote name)).
         left. exists name, perr. split; [right; exists qtype; auto|auto]. }
    destruct (decide (qtype = "")) as [Hq|Hq].
    { left. eexists _, d. exists u, [Host u]. split; [reflexivity|]. right.
      exists qtype, name. repeat split; auto. }
    destruct (decide (qtype = "dns")) as [Hd|Hd].
    + destruct (Resolve d (match net_SplitHostPort (Host u) with
                           | inr _ => Host u +:+ ":9093"
                           | inl _ => Host u
                           end) "dns") as [d1 [recs|rerr]] eqn:Hr.
      * left. eexists _, d1. exists u, recs. split; [reflexivity|]. right.
        exists qtype, name. repeat split; auto.
      * right. exists d1, (withMessage rerr "alertmanager resolve"). right.
        exists qtype, name, u, rerr. repeat split; auto.
    + destruct (Resolve d (Host u) qtype) as [d1 [recs|rerr]] eqn:Hr.
      * left. eexists _, d1. exists u, recs. split; [reflexivity|]. right.
        exists qtype, name. repeat split; auto.
      * right. exists d1, (withMessage rerr "alertmanager resolve"). right.
        exists qtype, name, u, rerr. repeat split; auto.
  - assert (Hno : forall a b : string, addr <> a +:+ "+" +:+ b)
      by (apply (cut_None_no_sep "+"), Hc).
    destruct (url_Parse addr) as [u|perr] eqn:Hp.
    + left. eexists _, d. exists u, [Host u]. split; [reflexivity|]. left. auto.
    + right. exists d, (withMessage perr ("parse URL " +:+ strconv_Quote addr)).
      left. exists addr, perr. split; [left; auto|auto].
Qed.

Lemma addresses_expansion_run (pre : list string) :
  forall (d dm : D) (groups : list (list URL)) (rest : list string) (result : list URL),
    addresses_expansion d pre groups dm ->
    update_loop (pre ++ rest) d result = update_loop rest dm (result ++ concat groups).
Proof.
  induction pre as [|addr pre IH]; intros d dm groups rest result Hex;
    destruct groups as [|g gs]; simpl in Hex; try contradiction.
  - subst dm. simpl. rewrite app_nil_r. reflexivity.
  - destruct Hex as (d1 & Hstep & Hrest).
    change ((addr :: pre) ++ rest) with (addr :: (pre ++ rest)).
    rewrite (address_expansion_run d addr g d1 _ _ Hstep).
    rewrite (IH d1 dm gs rest _ Hrest). simpl. rewrite <- app_assoc. reflexivity.
Qed.

Lemma update_loop_expansion (todo : list string) :
  forall (d d' : D) (result res : list URL),
    update_loop todo d result = (d', inl res) ->
    exists groups : list (list URL),
      res = result ++ concat groups /\ addresses_expansion d todo groups d'.
Proof.
  induction todo as [|addr rest IH]; intros d d' result res Heq.
  - simpl in Heq. inversion Heq; subst. exists []. simpl.
    rewrite app_nil_r. auto.
  - destruct (address_expands_or_fails d addr) as [(g & d1 & Hstep)|(d1 & err & Hf)].
    + rewrite (address_expansion_run d addr g d1 _ _ Hstep) in Heq.
      apply IH in Heq. destruct Heq as (groups & -> & Hrest).
      exists (g :: groups). split; [simpl; rewrite <- app_assoc; reflexivity|].
      simpl. exists d1. auto.
    + rewrite (address_failure_run d addr d1 err _ _ Hf) in Heq. discriminate.
Qed.

Lemma update_loop_error (todo : list string) :
  forall (d d' : D) (result : list URL) (err : error),
    update_loop todo d result = (d', inr err) ->
    exists (pre : list string) (addr : string) (post : list string)
           (groups : list (list URL)) (dm : D),
      todo = pre ++ addr :: post
      /\ addresses_expansion d pre groups dm
      /\ address_failure dm addr d' err.
Proof.
  induction todo as [|addr rest IH]; intros d d' result err Heq.
  - simpl in Heq. discriminate.
  - destruct (address_expands_or_fails d addr) as [(g & d1 & Hstep)|(d1 & e & Hf)].
    + rewrite (address_expansion_run d addr g d1 _ _ Hstep) in Heq.
      apply IH in Heq. destruct Heq as (pre & a & post & groups & dm & -> & Hex & Hfail).
      exists (addr :: pre), a, post, (g :: groups), dm.
      split; [reflexivity|]. split; [simpl; exists d1; auto|exact Hfail].
    + rewrite (address_failure_run d addr d1 e _ _ Hf) in Heq.
      inversion Heq; subst. exists [], addr, rest, [], d.
      split; [reflexivity|]. split; [reflexivity|exact Hf].
Qed.

(** What an expansion says of an address that starts with [dns+] and of
    one without "+". *)
Lemma addresses_expansion_cases (configured : list string) :
  forall (d d' : D) (groups : list (list URL)),
    addresses_expansion d configured groups d' ->
    Forall2
      (fun (addr : string) (g : list URL) =>
         exists (u : URL) (recs : list string),
           url_Parse (fst (nameQtype addr)) = inl u
           /\ g = map (fun resolved =>
                        mkURL (Scheme u) "" (User u) resolved (Path u) "" false "" "")
                      recs
           /\ (forall rest : string,
                 addr = "dns+" +:+ rest ->
                 url_Parse rest = inl u
                 /\ exists d1 d2 : D,
                      Resolve d1
                        (match net_SplitHostPort (Host u) with
                         | inr _ => Host u +:+ ":9093"
                         | inl _ => Host u
                         end) "dns" = (d2, inl recs))
           /\ ((forall a b : string, addr <> a +:+ "+" +:+ b) ->
               url_Parse addr = inl u /\ recs = [Host u]))
      configured groups.
Proof.
  induction configured as [|addr rest IH]; intros d d' groups Hex;
    destruct groups as [|g gs]; simpl in Hex; try contradiction; [constructor|].
  destruct Hex as (d1 & (u & recs & Hg & Hcase) & Hrest).
  constructor; [|exact (IH d1 d' gs Hrest)].
  exists u, recs.
  destruct Hcase as [(Hno & Hp & Hrecs & Hd)
                    |(qtype & name & Haddr & Hno & Hp & Hq)].
  - rewrite (nameQtype_unprefixed addr Hno). cbn [fst].
    split; [exact Hp|]. split; [exact Hg|]. split; [|auto].
    intros r Hr. exfalso. apply (Hno "dns" r). exact Hr.
  - subst addr. rewrite (nameQtype_prefixed qtype name Hno). cbn [fst].
    split; [exact Hp|]. split; [exact Hg|]. split.
    + intros r Hr.
      assert (Hnq : nameQtype (qtype +:+ "+" +:+ name) = (r, dns_A))
        by (rewrite Hr; apply nameQtype_dns).
      rewrite (nameQtype_prefixed qtype name Hno) in Hnq.
      inversion Hnq; subst. split; [exact Hp|].
      destruct Hq as [(Hc & _)|[(_ & Hres)|(_ & Hc & _)]];
        [discriminate Hc|eauto|exfalso; apply Hc; reflexivity].
    + intros Hnone. exfalso. apply (Hnone qtype name). reflexivity.
Qed.

(** C7.  A refresh that succeeds keeps the configured addresses and sets
    the current slice to the URLs of the configured addresses, address by
    address.  The addresses are resolved one after the other from the
    state the name service was given in to the state it is returned in,
    each as [address_expansion] says: one URL per record of the answer for
    that address, with the scheme, user info and path of the parsed
    address and the record as host.  In particular, for an address
    [dns+rest] the records are the name service's answer for the host of
    [rest], to which ":9093" is appended first when [net.SplitHostPort]
    finds no port in it; an address without any "+" contributes its own
    host unchanged. *)
Theorem update_success_expands_addresses (s s' : alertmanagerSet) (d d' : D) :
  update s d = (s', d', None) ->
  exists groups : list (list URL),
    get s' = concat groups
    /\ addrs s' = addrs s
    /\ addresses_expansion d (addrs s) groups d'
    /\ Forall2
         (fun (addr : string) (g : list URL) =>
            exists (u : URL) (recs : list string),
              url_Parse (fst (nameQtype addr)) = inl u
              /\ g = map (fun resolved =>
                           mkURL (Scheme u) "" (User u) resolved (Path u) "" false "" "")
                         recs
              /\ (forall rest : string,
                    addr = "dns+" +:+ rest ->
                    url_Parse rest = inl u
                    /\ exists d1 d2 : D,
                         Resolve d1
                           (match net_SplitHostPort (Host u) with
                            | inr _ => Host u +:+ ":9093"
                            | inl _ => Host u
                            end) "dns" = (d2, inl recs))
              /\ ((forall a b : string, addr <> a +:+ "+" +:+ b) ->
                  url_Parse addr = inl u /\ recs = [Host u]))
         (addrs s) groups.
Proof.
  intros Heq. unfold update in Heq.
  destruct (update_loop (addrs s) d []) as [d1 [result|err]] eqn:Hl; [|discriminate].
  inversion Heq; subst; clear Heq.
  apply update_loop_expansion in Hl. destruct Hl as (groups & -> & Hex).
  exists groups. split; [reflexivity|]. split; [reflexivity|].
  split; [exact Hex|]. exact (addresses_expansion_cases _ _ _ _ Hex).
Qed.

(** C9.  A call of [update] in which a configured address fails: the
    addresses before it have been resolved, one after the other from the
    state [d] of the name service, and the address fails in the state
    [d1] then reached, by a URL parse error or by an error of the name
    service.  The call returns that error and the set is the one it was
    given, so [get] reads the slice it read before; neither the mutex nor
    the slice has been touched.  Every call is of one of two kinds: it
    returns an error, because some address failed in this way, and has
    left the set and the mutex alone; or it returns nil and has replaced
    the current slice once, between a lock and an unlock of the mutex, by
    the complete result for all the addresses.  [get] reads the slice
    between a lock and an unlock of the same mutex. *)
Theorem update_failure_keeps_current
    (s : alertmanagerSet) (d : D)
    (pre : list string) (addr : string) (post : list string)
    (groups : list (list URL)) (d1 d2 : D) (err : error) :
  addrs s = pre ++ addr :: post ->
  addresses_expansion d pre groups d1 ->
  address_failure d1 addr d2 err ->
  update s d = (s, d2, Some err)
  /\ get (fst (fst (update s d))) = get s
  /\ get_locked (fst (fst (update s d))) = (get s, [opLock; opRead; opUnlock])
  /\ update_locked s d = (s, d2, Some err, [])
  /\ (forall (s0 : alertmanagerSet) (d0 : D),
        fst (update_locked s0 d0) = update s0 d0)
  /\ forall (s0 : alertmanagerSet) (d0 : D),
       match update_locked s0 d0 with
       | (s1, d3, Some e, ops) =>
           s1 = s0 /\ ops = []
           /\ exists (pre0 : list string) (addr0 : string) (post0 : list string)
                     (groups0 : list (list URL)) (dm : D),
                addrs s0 = pre0 ++ addr0 :: post0
                /\ addresses_expansion d0 pre0 groups0 dm
                /\ address_failure dm addr0 d3 e
       | (s1, d3, None, ops) =>
           addrs s1 = addrs s0
           /\ exists groups0 : list (list URL),
                get s1 = concat groups0
                /\ addresses_expansion d0 (addrs s0) groups0 d3
                /\ ops = [opLock; opWrite (concat groups0); opUnlock]
       end.
Proof.
  intros Haddrs Hex Hfail.
  assert (Hl : update_loop (addrs s) d [] = (d2, inr err)).
  { rewrite Haddrs, (addresses_expansion_run pre d d1 groups _ _ Hex).
    apply address_failure_run, Hfail. }
  assert (Hu : update s d = (s, d2, Some err)) by (unfold update; rewrite Hl; reflexivity).
  split; [exact Hu|]. split; [rewrite Hu; reflexivity|].
  split; [rewrite Hu; reflexivity|].
  split; [unfold update_locked; rewrite Hl; reflexivity|].
  split.
  - intros s0 d0. unfold update_locked, update.
    destruct (update_loop (addrs s0) d0 []) as [d3 [result|e]]; reflexivity.
  - intros s0 d0. unfold update_locked.
    destruct (update_loop (addrs s0) d0 []) as [d3 [result|e]] eqn:Hl0.
    + split; [reflexivity|].
      apply update_loop_expansion in Hl0. destruct Hl0 as (groups0 & -> & Hex0).
      exists groups0. auto.
    + split; [reflexivity|]. split; [reflexivity|].
      exact (update_loop_error _ _ _ _ _ Hl0).
Qed.

End AlertmanagerSet.

Lemma update_success_expands_addresses_witness :
  let s := newAlertmanagerSet ["dns+http://am.example/prefix"; "https://static.example:9093"] in
  let res := @update _ Fixture.resolver Fixture.net s tt in
  res = (fst (fst res), tt, None)
  /\ map Host (get (fst (fst res))) = ["10.0.0.1:9093"; "10.0.0.2:9093"; "static.example:9093"]
  /\ map Scheme (get (fst (fst res))) = ["http"; "http"; "https"]
  /\ map Path (get (fst (fst res))) = ["/prefix"; "/prefix"; ""]
  /\ exists groups : list (list URL),
       get (fst (fst res)) = concat groups /\ length groups = 2%nat
       /\ @addresses_expansion _ Fixture.resolver Fixture.net tt (addrs s) groups tt.
Proof.
  intros s res.
  assert (Hres : res = (fst (fst res), tt, None)) by reflexivity.
  split; [exact Hres|]. split; [reflexivity|]. split; [reflexivity|]. split; [reflexivity|].
  destruct (@update_success_expands_addresses _ Fixture.resolver Fixture.net
              s (fst (fst res)) tt tt Hres) as (groups & Hget & _ & Hex & Hall).
  exists groups. split; [exact Hget|]. split; [|exact Hex].
  apply Forall2_length in Hall. symmetry. exact Hall.
Defined.

Lemma update_failure_keeps_current_witness :
  let old := [URL_lit "https" "old.example:9093" "" None] in
  let s := mkAlertmanagerSet
             ["https://static.example:9093"; "dns+http://am.example/prefix"] old in
  let static := [URL_lit "https" "static.example:9093" "" None] in
  let err := withMessage (errorString "no such host") "alertmanager resolve" in
  addrs s = ["https://static.example:9093"] ++ "dns+http://am.example/prefix" :: []
  /\ @addresses_expansion _ Fixture.flaky Fixture.net
       false ["https://static.example:9093"] [static] false
  /\ @address_failure _ Fixture.flaky Fixture.net
       false "dns+http://am.example/prefix" false err
  /\ @update _ Fixture.flaky Fixture.net s false = (s, false, Some err)
  /\ get (fst (fst (@update _ Fixture.flaky Fixture.net s false))) = old
  /\ snd (@update _ Fixture.flaky Fixture.net s true) = None.
Proof.
  intros old s static err.
  assert (Haddrs : addrs s
                   = ["https://static.example:9093"] ++ "dns+http://am.example/prefix" :: [])
    by reflexivity.
  assert (Hex : @addresses_expansion _ Fixture.flaky Fixture.net
                  false ["https://static.example:9093"] [static] false).
  { exists false. split; [|reflexivity].
    exists (URL_lit "https" "static.example:9093" "" None), ["static.example:9093"].
    split; [reflexivity|]. left.
    split; [apply (cut_None_no_sep "+"); reflexivity|].
    split; [reflexivity|]. split; reflexivity. }
  assert (Hfail : @address_failure _ Fixture.flaky Fixture.net
                    false "dns+http://am.example/prefix" false err).
  { right.
    exists "dns", "http://am.example/prefix",
      (URL_lit "http" "am.example" "/prefix" None), (errorString "no such host").
    split; [reflexivity|].
    split; [apply (cut_None_no_sep "+"); reflexivity|].
    split; [reflexivity|]. split; [left; split; reflexivity|reflexivity]. }
  split; [exact Haddrs|]. split; [exact Hex|]. split; [exact Hfail|].
  destruct (@update_failure_keeps_current _ Fixture.flaky Fixture.net s false
              ["https://static.example:9093"] "dns+http://am.example/prefix" []
              [static] false false err Haddrs Hex Hfail)
    as (Hu & Hget & _).
  split; [exact Hu|]. split; [exact Hget|]. reflexivity.
Defined.

(** ** The notify callback *)

Section Notify.
Context {GN : GoNet} {Q : Type} {AQ : AlertQueue Q}.

Lemma AlertState_eqb_Pending (st : AlertState) :
  AlertState_eqb st StatePending = true <-> st = StatePending.
Proof. destruct st; simpl; split; congruence. Qed.

Lemma notify_loop_filter (alertQueryURL : URL) (expr : string) (alerts : list rules_Alert) :
  forall res : list alert_Alert,
    notify_loop alertQueryURL expr alerts res =
    res ++ map (notify_alert alertQueryURL expr)
               (filter (fun alrt => State alrt <> StatePending) alerts).
Proof.
  induction alerts as [|alrt rest IH]; intros res; simpl.
  - rewrite app_nil_r. reflexivity.
  - destruct (AlertState_eqb (State alrt) StatePending) eqn:Hs.
    + apply AlertState_eqb_Pending in Hs.
      rewrite filter_cons_False by (intros Hn; congruence). apply IH.
    + assert (Hn : State alrt <> StatePending).
      { intros Hp. apply AlertState_eqb_Pending in Hp. congruence. }
      rewrite filter_cons_True by exact Hn.
      rewrite IH, <- app_assoc. reflexivity.
Qed.

(** C6.  [notify] makes one [Push], of one notification per alert whose
    state is not Pending, in the order of the alerts.  A notification
    carries the labels and annotations of its alert, starts at the
    alert's [FiredAt], and its [EndsAt] is set (to [ResolvedAt]) exactly
    when [ResolvedAt] is not the zero time. *)
Theorem notify_pushes_non_pending
    (alertQueryURL : URL) (alertQ : Q) (expr : string) (alerts : list rules_Alert) :
  exists res : list alert_Alert,
    notify alertQueryURL alertQ expr alerts = Push alertQ res
    /\ Forall2
         (fun (alrt : rules_Alert) (a : alert_Alert) =>
            StartsAt a = FiredAt alrt
            /\ a_Labels a = ra_Labels alrt
            /\ a_Annotations a = ra_Annotations alrt
            /\ GeneratorURL a = URL_String alertQueryURL +:+ TableLinkForExpression expr
            /\ (IsZero (EndsAt a) = false <-> IsZero (ResolvedAt alrt) = false)
            /\ (IsZero (ResolvedAt alrt) = false -> EndsAt a = ResolvedAt alrt)
            /\ (IsZero (ResolvedAt alrt) = true -> EndsAt a = Time_zero))
         (filter (fun alrt => State alrt <> StatePending) alerts) res.
Proof.
  exists (map (notify_alert alertQueryURL expr)
            (filter (fun alrt => State alrt <> StatePending) alerts)).
  split.
  - unfold notify. rewrite notify_loop_filter. reflexivity.
  - apply Forall2_fmap_r, Forall_Forall2_diag, Forall_forall. intros alrt _.
    unfold compose, notify_alert. cbv beta zeta.
    destruct (IsZero (ResolvedAt alrt)) eqn:Hz;
      cbn [negb StartsAt EndsAt a_Labels a_Annotations GeneratorURL]; rewrite ?Hz.
    + do 4 (split; [reflexivity|]).
      split; [split; intros Hx; [cbv in Hx|]; discriminate Hx|].
      split; [intros Hx; discriminate Hx|reflexivity].
    + do 4 (split; [reflexivity|]).
      split; [split; reflexivity|].
      split; [reflexivity|intros Hx; discriminate Hx].
Qed.

End Notify.

(** ** The file-SD update loop *)

Section FileSD.
Context {C G : Type} {SC : SDCache C G}.

Lemma fileSD_loop_updates (msgs : list (option (list G))) (tail : list (fileSDEvent G)) :
  forall st : fileSDState C G,
    fileSD_loop (map fileSDUpdate msgs ++ tail) st =
    fileSD_loop tail
      (mkFileSDState (fold_left cache_Update (omap id msgs) (fileSDCache st))
                     (updateCalls st ++ omap id msgs)).
Proof.
  induction msgs as [|m rest IH]; intros st; simpl.
  - rewrite app_nil_r. destruct st; reflexivity.
  - rewrite IH. destruct m as [tgs|]; simpl.
    + rewrite <- app_assoc. reflexivity.
    + reflexivity.
Qed.

(** C8.  The loop on any sequence of messages, followed or not by the end
    of its context: the calls of [Update] made are exactly the non-nil
    messages, one call each and in order, so a nil message changes neither
    the cache nor the calls; the loop returns only at the end of the
    context. *)
Theorem fileSD_loop_ignores_nil
    (msgs : list (option (list G))) (later : list (fileSDEvent G)) (st : fileSDState C G) :
  let after :=
    mkFileSDState (fold_left cache_Update (omap id msgs) (fileSDCache st))
                  (updateCalls st ++ omap id msgs) in
  fileSD_loop (map fileSDUpdate msgs) st = (after, false)
  /\ fileSD_loop (map fileSDUpdate msgs ++ ctxUpdateDone :: later) st = (after, true)
  /\ fileSD_recv st None = st
  /\ forall tgs : list G,
       fileSD_recv st (Some tgs) =
       mkFileSDState (cache_Update (fileSDCache st) tgs) (updateCalls st ++ [tgs]).
Proof.
  intros after. split; [|split; [|split]].
  - rewrite <- (app_nil_r (map fileSDUpdate msgs)), fileSD_loop_updates. reflexivity.
  - rewrite fileSD_loop_updates. reflexivity.
  - reflexivity.
  - reflexivity.
Qed.

End FileSD.

(** ** The reload loop *)

Section Reload.
Context {FS : Type} {RF : RuleFS FS}.

Lemma glob_ruleFiles_files (fs : FS) (ruleFiles : list string) :
  forall (files : list string) (lg lg' : list LogEntry),
    fst (glob_ruleFiles fs ruleFiles files lg) = fst (glob_ruleFiles fs ruleFiles files lg').
Proof.
  induction ruleFiles as [|pat rest IH]; intros files lg lg'; simpl; [reflexivity|].
  destruct (filepath_Glob fs pat); apply IH.
Qed.

Lemma parseRuleFiles_error (fs : FS) (files : list string) :
  Exists (fun fn => exists err, parseRuleFile fs fn = inr err) files ->
  exists err, parseRuleFiles fs files = inr err.
Proof.
  induction files as [|fn rest IH]; intros Hex; [inversion Hex|]. simpl.
  destruct (parseRuleFile fs fn) as [decls|e] eqn:Hp; [|eauto].
  assert (Hrest : Exists (fun fn => exists err, parseRuleFile fs fn = inr err) rest).
  { inversion Hex as [? ? [err Herr]|]; subst; [congruence|assumption]. }
  destruct (IH Hrest) as [err ->]. eauto.
Qed.

Lemma parseRuleFiles_ok (fs : FS) (files : list string) :
  Forall (fun fn => exists decls, parseRuleFile fs fn = inl decls) files ->
  exists parsed, parseRuleFiles fs files = inl parsed.
Proof.
  induction files as [|fn rest IH]; intros Hall; simpl; [eauto|].
  inversion Hall as [|? ? [decls Hd] Hrest]; subst.
  rewrite Hd. destruct (IH Hrest) as [parsed ->]. eauto.
Qed.

(** C3.  One reload event over the globbed rule files.  When a file does
    not parse, the rule managers with their groups and alert state are as
    before, [configSuccess] reads 0, and neither [rulesLoaded] nor the
    success timestamp is touched.  When all files parse, [configSuccess]
    reads 1, the success timestamp is the current time and [rulesLoaded]
    is stamped afresh from the live groups. *)
Theorem reload_once_outcome
    (dataDir : string) (evalInterval : Z) (ruleFiles : list string)
    (fs : FS) (now : Z) (st : ReloadState) :
  let files := fst (glob_ruleFiles fs ruleFiles [] []) in
  let st' := reload_once dataDir evalInterval ruleFiles fs now st in
  (Exists (fun fn => exists err, parseRuleFile fs fn = inr err) files ->
   ruleMgrs st' = ruleMgrs st
   /\ configSuccess st' = 0%Z
   /\ rulesLoaded st' = rulesLoaded st
   /\ configSuccessTime st' = configSuccessTime st)
  /\ (Forall (fun fn => exists decls, parseRuleFile fs fn = inl decls) files ->
      configSuccess st' = 1%Z
      /\ configSuccessTime st' = now
      /\ rulesLoaded st' = stamp_rulesLoaded (ruleMgrs st')).
Proof.
  intros files st'. subst files st'. unfold reload_once.
  match goal with |- context [glob_ruleFiles fs ruleFiles [] ?l] =>
    rewrite (glob_ruleFiles_files fs ruleFiles [] [] l);
    destruct (glob_ruleFiles fs ruleFiles [] l) as [files lg1] end.
  cbn [fst]. unfold Managers_Update. split.
  - intros Hex. destruct (parseRuleFiles_error fs files Hex) as [err ->].
    simpl. auto.
  - intros Hall. destruct (parseRuleFiles_ok fs files Hall) as [parsed ->].
    simpl. auto.
Qed.

End Reload.

Lemma reload_once_outcome_witness :
  let failed := @reload_once _ Fixture.rulefs "data/" 30 ["a.yaml"] Fixture.bad_fs 17 Fixture.live in
  let loaded := @reload_once _ Fixture.rulefs "data/" 30 ["a.yaml"] Fixture.good_fs 17 Fixture.live in
  (ruleMgrs failed = ruleMgrs Fixture.live
   /\ configSuccess failed = 0%Z
   /\ rulesLoaded failed = rulesLoaded Fixture.live
   /\ configSuccessTime failed = configSuccessTime Fixture.live)
  /\ (configSuccess loaded = 1%Z /\ configSuccessTime loaded = 17%Z).
Proof.
  intros failed loaded. split.
  - apply (proj1 (@reload_once_outcome _ Fixture.rulefs "data/" 30 ["a.yaml"]
                    Fixture.bad_fs 17 Fixture.live)).
    apply Exists_cons_hd. eexists. reflexivity.
  - destruct (proj2 (@reload_once_outcome _ Fixture.rulefs "data/" 30 ["a.yaml"]
                       Fixture.good_fs 17 Fixture.live)) as (H1 & H2 & _).
    + constructor; [eexists; reflexivity|constructor].
    + split; [exact H1|exact H2].
Defined.

(** ** Start-up checks *)

Section Setup.
Context {GN : GoNet} {RG : Type} {RR : RuleRuntime RG}.

Lemma lookupQueries_scan_None (qs : list string) :
  forall seen : gset string,
    lookupQueries_scan qs seen = None -> NoDup qs.
Proof.
  induction qs as [|q rest IH]; intros seen Hs; [constructor|].
  simpl in Hs. destruct (decide (q ∈ seen)); [discriminate|].
  assert (Hin : forall seen0 : gset string,
             q ∈ seen0 -> lookupQueries_scan rest seen0 = None -> q ∉ rest).
  { clear. induction rest as [|x rest IH]; intros seen0 Hq Hs; [apply not_elem_of_nil|].
    simpl in Hs. destruct (decide (x ∈ seen0)) as [|Hx]; [discriminate|].
    apply not_elem_of_cons. split; [intros ->; contradiction|].
    apply (IH ({[x]} ∪ seen0)); [set_solver|exact Hs]. }
  constructor; [|apply (IH _ Hs)].
  apply (Hin ({[q]} ∪ seen)); [set_solver|exact Hs].
Qed.

Lemma has_empty_addr_elem (queryAddrs : list string) :
  "" ∈ queryAddrs -> has_empty_addr queryAddrs = true.
Proof.
  induction queryAddrs as [|a rest IH]; intros Hin; [inversion Hin|]. simpl.
  destruct (String.eqb a "") eqn:Ha; [reflexivity|].
  apply String.eqb_neq in Ha. apply elem_of_cons in Hin.
  destruct Hin as [Heq|Hin]; [congruence|auto].
Qed.

(** C10.  The setup of the rule command returns an error, with the run
    group as it was given (nothing has been added to it and the rest of
    [runRule] has not run), when an address occurs twice among the
    [--query] values, when there is neither a [--query] value nor a
    [--query.sd-files] pattern, or when a [--query] value is the empty
    string. *)
Theorem registerRule_setup_rejects (flags : RuleFlags) (g : RG) :
  ~ NoDup (queries flags)
  \/ (queries flags = [] /\ fileSDFiles flags = [])
  \/ "" ∈ queries flags ->
  exists err, registerRule_setup flags g = (g, Some err).
Proof.
  intros Hbad. unfold registerRule_setup.
  destruct (parseFlagLabels (labelStrs flags)) as [lset|e]; [|eauto].
  destruct (url_Parse (alertQueryURL flags)) as [u|e]; [|eauto].
  destruct (lookupQueries_scan (queries flags) ∅) as [q|] eqn:Hs; [eauto|].
  apply lookupQueries_scan_None in Hs.
  destruct Hbad as [Hdup|[[Hq Hf]|Hempty]]; [contradiction| |].
  - rewrite Hq, Hf. simpl. eauto.
  - destruct (negb (0 <? length (fileSDFiles flags))%nat
              && (length (queries flags) =? 0)%nat); [eauto|].
    unfold runRule. rewrite (has_empty_addr_elem _ Hempty). eauto.
Qed.

End Setup.

Lemma registerRule_setup_rejects_witness :
  let labels := ["replica=" +:+ Fixture.dquote +:+ "A" +:+ Fixture.dquote] in
  let run flags := @registerRule_setup Fixture.net _ Fixture.runtime flags [] in
  (exists err, run (mkRuleFlags labels "http://q.example" ["q1:9090"; "q1:9090"] ["sd.json"])
               = ([], Some err))
  /\ (exists err, run (mkRuleFlags labels "http://q.example" [] []) = ([], Some err))
  /\ (exists err, run (mkRuleFlags labels "http://q.example" ["q1:9090"; ""] [])
                  = ([], Some err))
  /\ run (mkRuleFlags labels "http://q.example" ["q1:9090"] [])
     = (["tsdb"; "rule managers"; "grpc"; "http"], None).
Proof.
  intros labels run. split; [|split; [|split]].
  - apply (@registerRule_setup_rejects Fixture.net _ Fixture.runtime). left.
    simpl. intros Hnd. apply NoDup_cons in Hnd. destruct Hnd as [Hnot _].
    apply Hnot, list_elem_of_here.
  - apply (@registerRule_setup_rejects Fixture.net _ Fixture.runtime). right; left.
    split; reflexivity.
  - apply (@registerRule_setup_rejects Fixture.net _ Fixture.runtime). right; right.
    simpl. apply list_elem_of_further, list_elem_of_here.
  - vm_compute. reflexivity.
Defined.

(** * Further properties of the code *)

(** stdpp's [set_solver] clears hypotheses by name and warns when one is
    absent; the warning says nothing about the proofs. *)
#[local] Set Warnings "-clear-no-such-hyp".

(** ** [removeDuplicateQueryAddrs] and the snapshot of [queryFunc] *)

Section Deduplication.
Context {World Vector : Type} {PC : PromClient World Vector} {GN : GoNet}.

Lemma removeDuplicateQueryAddrs_scan_count
    (addrs : list string) :
  forall (set : gset string) (st : EvalState World Vector),
    fst (removeDuplicateQueryAddrs_scan addrs set st) = list_to_set addrs ∪ set
    /\ (duplicatedQuery (snd (removeDuplicateQueryAddrs_scan addrs set st))
        + size (fst (removeDuplicateQueryAddrs_scan addrs set st))
        = duplicatedQuery st + size set + length addrs)%nat.
Proof.
  induction addrs as [|a rest IH]; intros set st; simpl.
  - split; [set_solver|lia].
  - destruct (decide (a ∈ set)) as [Hin|Hout].
    + match goal with |- context [removeDuplicateQueryAddrs_scan rest _ ?s] =>
        destruct (IH ({[a]} ∪ set) s) as [Hset Hcount] end.
      split; [rewrite Hset; set_solver|].
      rewrite Hcount. simpl.
      assert (Heq : {[a]} ∪ set = set) by set_solver. rewrite Heq. lia.
    + destruct (IH ({[a]} ∪ set) st) as [Hset Hcount].
      split; [rewrite Hset; set_solver|].
      rewrite Hcount, size_union by set_solver. rewrite size_singleton. lia.
Qed.

Lemma removeDuplicateQueryAddrs_scan_fresh (addrs : list string) :
  forall (set : gset string) (st : EvalState World Vector),
    NoDup addrs -> (forall a, a ∈ addrs -> a ∉ set) ->
    snd (removeDuplicateQueryAddrs_scan addrs set st) = st.
Proof.
  induction addrs as [|a rest IH]; intros set st Hnd Hfresh; simpl; [reflexivity|].
  apply NoDup_cons in Hnd. destruct Hnd as [Ha Hnd].
  destruct (decide (a ∈ set)) as [Hin|_].
  - exfalso. apply (Hfresh a); [apply list_elem_of_here|exact Hin].
  - apply IH; [exact Hnd|]. intros b Hb.
    assert (b <> a) by (intros ->; contradiction).
    assert (b ∉ set) by (apply Hfresh, list_elem_of_further, Hb).
    set_solver.
Qed.

Lemma removeDuplicateQueryAddrs_set
    (st : EvalState World Vector) (addrs : list string) :
  fst (removeDuplicateQueryAddrs st addrs) = elements (list_to_set addrs : gset string)
  /\ (duplicatedQuery (snd (removeDuplicateQueryAddrs st addrs))
      + size (list_to_set addrs : gset string)
      = duplicatedQuery st + length addrs)%nat.
Proof.
  unfold removeDuplicateQueryAddrs.
  pose proof (removeDuplicateQueryAddrs_scan_count addrs ∅ st) as [Hset Hcount].
  destruct (removeDuplicateQueryAddrs_scan addrs ∅ st) as [set st1].
  cbn [fst snd] in *. subst set.
  assert (Heq : list_to_set addrs ∪ (∅ : gset string) = list_to_set addrs) by set_solver.
  rewrite Heq in *. rewrite size_empty in Hcount. split; [reflexivity|lia].
Qed.

(** X1.  The slice that [removeDuplicateQueryAddrs] returns has no
    duplicates and holds exactly the addresses given; the counter grows by
    the number of addresses dropped; the snapshot, the world, the warning
    counter and the trace of calls are left alone. *)
Theorem removeDuplicateQueryAddrs_result
    (st : EvalState World Vector) (addrs : list string) :
  let '(deduplicated, st') := removeDuplicateQueryAddrs st addrs in
  NoDup deduplicated
  /\ (forall a : string, a ∈ deduplicated <-> a ∈ addrs)
  /\ (duplicatedQuery st' + length deduplicated = duplicatedQuery st + length addrs)%nat
  /\ dnsProvider_Addresses st' = dnsProvider_Addresses st
  /\ world st' = world st
  /\ ruleEvalWarnings st' = ruleEvalWarnings st
  /\ requests st' = requests st.
Proof.
  pose proof (removeDuplicateQueryAddrs_frame st addrs) as Hf.
  pose proof (removeDuplicateQueryAddrs_set st addrs) as [Hres Hcount].
  destruct (removeDuplicateQueryAddrs st addrs) as [deduplicated st1].
  cbn [fst snd] in *. subst deduplicated.
  split; [apply NoDup_elements|].
  split; [intros a; rewrite elem_of_elements; apply elem_of_list_to_set|].
  split; [exact Hcount|exact Hf].
Qed.

(** X2.  On addresses that are already distinct the function changes
    nothing (no count, no log line) and returns them, in some order. *)
Theorem removeDuplicateQueryAddrs_distinct
    (st : EvalState World Vector) (addrs : list string) :
  NoDup addrs ->
  exists deduplicated : list string,
    removeDuplicateQueryAddrs st addrs = (deduplicated, st)
    /\ deduplicated ≡ₚ addrs.
Proof.
  intros Hnd. unfold removeDuplicateQueryAddrs.
  pose proof (removeDuplicateQueryAddrs_scan_count addrs ∅ st) as [Hset _].
  pose proof (removeDuplicateQueryAddrs_scan_fresh addrs ∅ st Hnd) as Hst.
  destruct (removeDuplicateQueryAddrs_scan addrs ∅ st) as [set st1].
  cbn [fst snd] in *. subst set. rewrite Hst by set_solver.
  exists (elements (list_to_set addrs ∪ (∅ : gset string))). split; [reflexivity|].
  assert (Heq : list_to_set addrs ∪ (∅ : gset string) = list_to_set addrs) by set_solver.
  rewrite Heq. apply elements_list_to_set, Hnd.
Qed.

Lemma queryFunc_loop_frame (s : PartialResponseStrategy) (addrs : list string)
    (q : string) (t : Time) (perm : list nat) :
  forall st : EvalState World Vector,
    duplicatedQuery (fst (queryFunc_loop s addrs q t perm st)) = duplicatedQuery st
    /\ dnsProvider_Addresses (fst (queryFunc_loop s addrs q t perm st))
       = dnsProvider_Addresses st.
Proof.
  induction perm as [|i rest IH]; intros st; simpl; [auto|].
  destruct (addrs !! i) as [addr|]; [|auto].
  destruct (url_Parse ("http://" +:+ addr)) as [u|perr]; [|auto].
  destruct (PromqlQueryInstant (world st) u q t (mkQueryOptions true s)) as [w res].
  destruct res as [[v warns]|err].
  - destruct (0 <? length warns)%nat; simpl; auto.
  - match goal with |- context [queryFunc_loop s addrs q t rest ?st1] =>
      destruct (IH st1) as [Hd Ha] end.
    rewrite Hd, Ha. simpl. auto.
Qed.

(** X3.  Every call of the query function, whatever its result, adds to
    [thanos_rule_duplicated_query_address] the number of entries of the
    snapshot that repeat an earlier one, and leaves the snapshot as it
    is: the same duplicate is counted again at each evaluation. *)
Theorem queryFunc_counts_duplicates
    (s : PartialResponseStrategy) (perm : list nat)
    (st : EvalState World Vector) (q : string) (t : Time) :
  let st' := fst (queryFunc s perm st q t) in
  (duplicatedQuery st' + length (remove_dups (dnsProvider_Addresses st))
   = duplicatedQuery st + length (dnsProvider_Addresses st))%nat
  /\ dnsProvider_Addresses st' = dnsProvider_Addresses st.
Proof.
  unfold queryFunc.
  pose proof (removeDuplicateQueryAddrs_frame st (dnsProvider_Addresses st)) as Hf.
  pose proof (removeDuplicateQueryAddrs_set st (dnsProvider_Addresses st)) as [_ Hcount].
  destruct (removeDuplicateQueryAddrs st (dnsProvider_Addresses st)) as [dedup st1].
  destruct (queryFunc_loop_frame s (dnsProvider_Addresses st) q t perm st1) as [Hd Ha].
  cbn [fst snd] in *. rewrite Hd, Ha. split; [|apply Hf].
  assert (Hlen : length (remove_dups (dnsProvider_Addresses st))
                 = size (list_to_set (dnsProvider_Addresses st) : gset string)).
  { apply Permutation_length, NoDup_Permutation;
      [apply NoDup_remove_dups|apply NoDup_elements|].
    intros a. rewrite elem_of_remove_dups, elem_of_elements, elem_of_list_to_set.
    reflexivity. }
  lia.
Qed.

Lemma distinct_indices_distinct_addresses (s : PartialResponseStrategy)
    (addrs : list string) (q : string) (t : Time) :
  NoDup addrs ->
  forall (idxs : list nat) (calls : list (Call Vector)),
    NoDup idxs ->
    Forall2 (call_of_index s addrs q t) idxs calls ->
    exists tried : list string,
      NoDup tried
      /\ Forall2 (fun i a => addrs !! i = Some a) idxs tried
      /\ Forall2 (fun a c => url_Parse ("http://" +:+ a) = inl (req_url (call_args c)))
           tried calls.
Proof.
  intros Hnd idxs calls Hni Hall. induction Hall as [|i c idxs calls Hc Hall IH].
  - exists []. repeat split; constructor.
  - apply NoDup_cons in Hni. destruct Hni as [Hi Hni].
    destruct (IH Hni) as (tried & Hnt & Hlk & Hurl).
    destruct Hc as (addr & u & Ha & Hp & Hargs).
    exists (addr :: tried). split; [|split].
    + apply NoDup_cons. split; [|exact Hnt]. intros Hin.
      apply list_elem_of_lookup in Hin. destruct Hin as [k Hk].
      destruct (Forall2_lookup_r _ _ _ _ _ Hlk Hk) as (j & Hj & Hja).
      assert (i = j) by exact (NoDup_lookup addrs i j addr Hnd Ha Hja). subst j.
      apply Hi. apply list_elem_of_lookup. eauto.
    + constructor; assumption.
    + constructor; [|exact Hurl]. rewrite Hp, Hargs. reflexivity.
Qed.

(** X4.  When the snapshot of the provider holds no address twice, one
    call of the query function never requests an address twice: the calls
    it makes go to pairwise distinct addresses of the snapshot, and the
    duplicate counter does not move. *)
Theorem queryFunc_distinct_snapshot
    (s : PartialResponseStrategy) (perm : list nat)
    (st st' : EvalState World Vector) (q : string) (t : Time) (r : outcome Vector) :
  NoDup (dnsProvider_Addresses st) ->
  perm ≡ₚ seq 0 (length (dnsProvider_Addresses st)) ->
  queryFunc s perm st q t = (st', r) ->
  exists (calls : list (Call Vector)) (tried : list string),
    requests st' = requests st ++ calls
    /\ NoDup tried
    /\ (forall a : string, a ∈ tried -> a ∈ dnsProvider_Addresses st)
    /\ Forall2 (fun a c => url_Parse ("http://" +:+ a) = inl (req_url (call_args c)))
         tried calls
    /\ duplicatedQuery st' = duplicatedQuery st.
Proof.
  intros Hnd Hperm Heq.
  destruct (queryFunc_trace s perm st st' q t r Hperm Heq)
    as (calls & Hreq & _ & Hidx & _).
  destruct (distinct_indices_distinct_addresses s _ q t Hnd _ _
              (perm_indices_NoDup perm _ (length calls) Hperm) Hidx)
    as (tried & Hnt & Hlk & Hurl).
  exists calls, tried. repeat split; auto.
  - intros a Ha. apply list_elem_of_lookup in Ha. destruct Ha as [k Hk].
    destruct (Forall2_lookup_r _ _ _ _ _ Hlk Hk) as (j & _ & Hja).
    apply list_elem_of_lookup. eauto.
  - unfold queryFunc, removeDuplicateQueryAddrs in Heq.
    pose proof (removeDuplicateQueryAddrs_scan_fresh (dnsProvider_Addresses st) ∅ st Hnd)
      as Hst.
    destruct (removeDuplicateQueryAddrs_scan (dnsProvider_Addresses st) ∅ st)
      as [set st1].
    cbn [snd] in Hst. rewrite Hst in Heq by set_solver.
    pose proof (queryFunc_loop_frame s (dnsProvider_Addresses st) q t perm st) as [Hd _].
    rewrite Heq in Hd. exact Hd.
Qed.

End Deduplication.

Lemma removeDuplicateQueryAddrs_distinct_witness :
  let st := Fixture.st0 ["q1:9090"; "q2:9090"] in
  NoDup ["q1:9090"; "q2:9090"]
  /\ exists deduplicated : list string,
       removeDuplicateQueryAddrs st ["q1:9090"; "q2:9090"] = (deduplicated, st)
       /\ deduplicated ≡ₚ ["q1:9090"; "q2:9090"].
Proof.
  intros st.
  assert (Hnd : NoDup ["q1:9090"; "q2:9090"])
    by (apply (bool_decide_unpack _); vm_compute; reflexivity).
  split; [exact Hnd|].
  exact (removeDuplicateQueryAddrs_distinct st ["q1:9090"; "q2:9090"] Hnd).
Defined.

Lemma queryFunc_distinct_snapshot_witness :
  let st := Fixture.st0 ["down:9090"; "q1:9090"] in
  let perm := [1; 0]%nat in
  let res := @queryFunc _ _ Fixture.prom Fixture.net
               PartialResponseStrategy_WARN perm st "up" Fixture.t0 in
  NoDup (dnsProvider_Addresses st)
  /\ perm ≡ₚ seq 0 (length (dnsProvider_Addresses st))
  /\ snd res = Ret 1%Z
  /\ exists (calls : list (Call Z)) (tried : list string),
       requests (fst res) = requests st ++ calls /\ NoDup tried
       /\ duplicatedQuery (fst res) = duplicatedQuery st.
Proof.
  intros st perm res.
  assert (Hnd : NoDup (dnsProvider_Addresses st))
    by (apply (bool_decide_unpack _); vm_compute; reflexivity).
  assert (Hperm : perm ≡ₚ seq 0 (length (dnsProvider_Addresses st)))
    by (apply perm_swap).
  split; [exact Hnd|]. split; [exact Hperm|]. split; [reflexivity|].
  destruct (@queryFunc_distinct_snapshot _ _ Fixture.prom Fixture.net
              PartialResponseStrategy_WARN perm st (fst res) "up" Fixture.t0 (snd res)
              Hnd Hperm (surjective_pairing res))
    as (calls & tried & Hreq & Hnt & _ & _ & Hdup).
  exists calls, tried. auto.
Defined.

(** ** [parseFlagLabels] *)

Lemma all_chars_cut (p : ascii -> bool) (sep : ascii) (s : string) :
  p sep = false -> all_chars p s = true -> cut sep s = None.
Proof.
  intros Hsep. induction s as [|c s IH]; simpl; intros Hall; [reflexivity|].
  apply andb_prop in Hall. destruct Hall as [Hc Hall].
  destruct (Ascii.eqb c sep) eqn:Hcs.
  - apply Ascii.eqb_eq in Hcs. congruence.
  - rewrite (IH Hall). reflexivity.
Qed.

Lemma LabelName_IsValid_no_equals (name : string) :
  LabelName_IsValid name = true -> cut "=" name = None.
Proof.
  intros Hv. apply (all_chars_cut (fun x => is_letter x || is_digit x));
    [reflexivity|].
  destruct name as [|c r]; [discriminate|]. simpl in *.
  apply andb_prop in Hv. destruct Hv as [Hc Hr]. rewrite Hc, Hr. reflexivity.
Qed.

Section ParseFlagLabels.
Context {GN : GoNet}.

Lemma parseFlagLabels_loop_success (s : list string) :
  forall acc lset : Labels,
    parseFlagLabels_loop s acc = inl lset ->
    exists new : Labels,
      lset = acc ++ new
      /\ Forall2
           (fun (l : string) (nv : string * string) =>
              LabelName_IsValid (fst nv) = true
              /\ exists quoted : string,
                   l = fst nv +:+ "=" +:+ quoted
                   /\ strconv_Unquote quoted = inl (snd nv))
           s new.
Proof.
  induction s as [|l rest IH]; intros acc lset Heq; simpl in Heq.
  - inversion Heq; subst. exists []. rewrite app_nil_r. split; constructor.
  - unfold strings_SplitN2 in Heq.
    destruct (cut "=" l) as [[name quoted]|] eqn:Hc; [|discriminate].
    destruct (LabelName_IsValid name) eqn:Hv; simpl in Heq; [|discriminate].
    destruct (strconv_Unquote quoted) as [val|err] eqn:Hu; [|discriminate].
    apply IH in Heq. destruct Heq as (new & -> & Hall).
    exists ((name, val) :: new). split; [rewrite <- app_assoc; reflexivity|].
    constructor; [|exact Hall]. simpl. split; [exact Hv|].
    exists quoted. split; [apply cut_Some, Hc|exact Hu].
Qed.

(** X5.  When [parseFlagLabels] succeeds, the label set has one label per
    flag, in the order of the flags: the flag is the label's name, an
    equals sign and a quoted text; the name is a valid label name and the
    value is what [strconv.Unquote] makes of the text. *)
Theorem parseFlagLabels_success (s : list string) (lset : Labels) :
  parseFlagLabels s = inl lset ->
  Forall2
    (fun (l : string) (nv : string * string) =>
       LabelName_IsValid (fst nv) = true
       /\ exists quoted : string,
            l = fst nv +:+ "=" +:+ quoted
            /\ strconv_Unquote quoted = inl (snd nv))
    s lset.
Proof.
  intros Heq. apply parseFlagLabels_loop_success in Heq.
  destruct Heq as (new & -> & Hall). exact Hall.
Qed.

(** X6.  [parseFlagLabels] succeeds exactly when every flag is
    well formed (a valid label name, an equals sign, a text that
    [strconv.Unquote] accepts); one malformed flag makes the whole call an
    error, whatever the other flags are. *)
Theorem parseFlagLabels_all_or_nothing (s : list string) :
  (exists lset : Labels, parseFlagLabels s = inl lset)
  <-> Forall
        (fun l : string =>
           exists name quoted val : string,
             l = name +:+ "=" +:+ quoted
             /\ LabelName_IsValid name = true
             /\ strconv_Unquote quoted = inl val)
        s.
Proof.
  split.
  - intros [lset Heq]. apply parseFlagLabels_loop_success in Heq.
    destruct Heq as (new & _ & Heq).
    induction Heq as [|l [name val] ? ? (Hv & quoted & Hl & Hu) _ IH]; constructor;
      [|exact IH].
    exists name, quoted, val. auto.
  - unfold parseFlagLabels. generalize (@nil (string * string)).
    induction s as [|l rest IH]; intros acc Hall; simpl; [eauto|].
    apply Forall_cons in Hall.
    destruct Hall as [(name & quoted & val & -> & Hv & Hu) Hrest].
    unfold strings_SplitN2.
    change (name +:+ "=" +:+ quoted) with (name +:+ String "=" quoted).
    rewrite (cut_first "=" name quoted (LabelName_IsValid_no_equals name Hv)).
    rewrite Hv, Hu. simpl. apply IH, Hrest.
Qed.

End ParseFlagLabels.

Lemma parseFlagLabels_success_witness :
  let flag := "replica=" +:+ Fixture.dquote +:+ "A=1" +:+ Fixture.dquote in
  @parseFlagLabels Fixture.net [flag] = inl [("replica", "A=1")]
  /\ Forall2
       (fun (l : string) (nv : string * string) =>
          LabelName_IsValid (fst nv) = true
          /\ exists quoted : string,
               l = fst nv +:+ "=" +:+ quoted
               /\ @strconv_Unquote Fixture.net quoted = inl (snd nv))
       [flag] [("replica", "A=1")].
Proof.
  intros flag.
  assert (Heq : @parseFlagLabels Fixture.net [flag] = inl [("replica", "A=1")])
    by reflexivity.
  split; [exact Heq|].
  exact (@parseFlagLabels_success Fixture.net [flag] [("replica", "A=1")] Heq).
Defined.

(** ** More on the Alertmanager set *)

(** X7.  How [update] reads a configured address: the query type is the
    text before the first "+" and the name is everything after it (later
    "+" signs stay in the name); an address without any "+" is its own
    name and has the empty query type. *)
Theorem nameQtype_split (addr : string) :
  let '(name, qtype) := nameQtype addr in
  (addr = qtype +:+ "+" +:+ name /\ forall a b : string, qtype <> a +:+ "+" +:+ b)
  \/ (name = addr /\ qtype = EmptyString
      /\ forall a b : string, addr <> a +:+ "+" +:+ b).
Proof.
  unfold nameQtype, strings_SplitN2.
  destruct (cut "+" addr) as [[q n]|] eqn:Hc.
  - left. split; [apply cut_Some, Hc|].
    apply (cut_None_no_sep "+" q), (cut_Some_first "+" addr q n Hc).
  - right. split; [reflexivity|]. split; [reflexivity|].
    apply (cut_None_no_sep "+" addr), Hc.
Qed.

Section AlertmanagerRefresh.
Context {D : Type} {RS : Resolver D} {GN : GoNet}.

Lemma update_loop_static (todo : list string) :
  Forall (fun addr : string =>
            (forall a b : string, addr <> a +:+ "+" +:+ b)
            /\ exists u : URL, url_Parse addr = inl u) todo ->
  forall (d : D) (result : list URL),
    exists urls : list URL,
      update_loop todo d result = (d, inl (result ++ urls))
      /\ Forall2
           (fun (addr : string) (x : URL) =>
              exists u : URL,
                url_Parse addr = inl u
                /\ x = mkURL (Scheme u) EmptyString (User u) (Host u) (Path u)
                         EmptyString false EmptyString EmptyString)
           todo urls.
Proof.
  induction todo as [|addr rest IH]; intros Hall d result.
  - exists []. rewrite app_nil_r. split; [reflexivity|constructor].
  - apply Forall_cons in Hall. destruct Hall as [[Hno [u Hp]] Hrest].
    simpl. rewrite (nameQtype_unprefixed addr Hno), Hp. simpl.
    destruct (IH Hrest d (result ++ [URL_lit (Scheme u) (Host u) (Path u) (User u)]))
      as (urls & -> & Hall).
    exists (URL_lit (Scheme u) (Host u) (Path u) (User u) :: urls).
    split; [rewrite <- app_assoc; reflexivity|].
    constructor; [|exact Hall]. exists u. split; [exact Hp|reflexivity].
Qed.

(** X8.  When no configured address has a "+" and all of them parse, a
    refresh succeeds without asking the name service (whose state is
    returned as it was given, whatever resolver is plugged in).  The
    current slice then has one URL per address, in order, made of the
    scheme, user info, host and path of the address; its query and
    fragment are dropped. *)
Theorem update_static_addresses (s : alertmanagerSet) (d : D) :
  Forall (fun addr : string =>
            (forall a b : string, addr <> a +:+ "+" +:+ b)
            /\ exists u : URL, url_Parse addr = inl u) (addrs s) ->
  exists urls : list URL,
    update s d = (mkAlertmanagerSet (addrs s) urls, d, None)
    /\ Forall2
         (fun (addr : string) (x : URL) =>
            exists u : URL,
              url_Parse addr = inl u
              /\ x = mkURL (Scheme u) EmptyString (User u) (Host u) (Path u)
                       EmptyString false EmptyString EmptyString)
         (addrs s) urls.
Proof.
  intros Hall. destruct (update_loop_static (addrs s) Hall d []) as (urls & Hl & Hurls).
  exists urls. split; [|exact Hurls]. unfold update. rewrite Hl. reflexivity.
Qed.

Lemma refresh_runs_snoc (ticks : list D) (d : D) :
  forall st : RefreshState,
    refresh_runs (ticks ++ [d]) st = fst (refresh_once (refresh_runs ticks st) d).
Proof.
  induction ticks as [|d0 rest IH]; intros st; simpl; [reflexivity|]. apply IH.
Qed.

Lemma refresh_once_cases (st : RefreshState) (d : D) :
  let st' := fst (refresh_once st d) in
  addrs (alertmgrs st') = addrs (alertmgrs st)
  /\ (if resolves (addrs (alertmgrs st)) d
      then get (alertmgrs st') = resolution (addrs (alertmgrs st)) d
           /\ alertMngrAddrResolutionErrors st' = alertMngrAddrResolutionErrors st
      else get (alertmgrs st') = get (alertmgrs st)
           /\ alertMngrAddrResolutionErrors st' = S (alertMngrAddrResolutionErrors st)).
Proof.
  unfold refresh_once, update, resolves, resolution.
  destruct (update_loop (addrs (alertmgrs st)) d []) as [d1 [result|err]]; simpl; auto.
Qed.

(** X9.  After any number of runs of the refresh closure: the configured
    addresses are the same; the error counter has grown by the number of
    runs in which the addresses did not all resolve; and the current
    slice is the full result of the last run in which they did, or the
    slice from before when there was none.  A failed refresh never
    empties the set and earlier results never pile up. *)
Theorem refresh_runs_outcome (ticks : list D) (st : RefreshState) :
  let configured := addrs (alertmgrs st) in
  let st' := refresh_runs ticks st in
  addrs (alertmgrs st') = configured
  /\ alertMngrAddrResolutionErrors st' =
       (alertMngrAddrResolutionErrors st
        + length (filter (fun d => resolves configured d = false) ticks))%nat
  /\ get (alertmgrs st') =
       match last (filter (fun d => resolves configured d = true) ticks) with
       | Some d => resolution configured d
       | None => get (alertmgrs st)
       end.
Proof.
  cbv zeta. induction ticks as [|d ticks IH] using rev_ind.
  - simpl. split; [reflexivity|]. split; [lia|reflexivity].
  - destruct IH as (Ha & He & Hg). rewrite refresh_runs_snoc.
    pose proof (refresh_once_cases (refresh_runs ticks st) d) as [Ha' Hc].
    cbv zeta in Ha'. rewrite Ha in Hc.
    split; [rewrite Ha'; exact Ha|].
    rewrite !filter_app.
    destruct (resolves (addrs (alertmgrs st)) d) eqn:Hr; destruct Hc as [Hg' He'].
    + rewrite (filter_cons_False _ d) by (rewrite Hr; discriminate).
      rewrite (filter_cons_True _ d) by exact Hr.
      rewrite !filter_nil, app_nil_r, last_snoc.
      split; [rewrite He', He; reflexivity|exact Hg'].
    + rewrite (filter_cons_True _ d) by exact Hr.
      rewrite (filter_cons_False _ d) by (rewrite Hr; discriminate).
      rewrite !filter_nil, app_nil_r, length_app. simpl.
      split; [rewrite He', He; lia|rewrite Hg'; exact Hg].
Qed.

End AlertmanagerRefresh.

Lemma update_static_addresses_witness :
  let s := mkAlertmanagerSet ["https://static.example:9093/am"]
             [URL_lit "http" "old.example:9093" EmptyString None] in
  Forall (fun addr : string =>
            (forall a b : string, addr <> a +:+ "+" +:+ b)
            /\ exists u : URL, @url_Parse Fixture.net addr = inl u) (addrs s)
  /\ map Host (get (fst (fst (@update _ Fixture.resolver Fixture.net s tt))))
     = ["static.example:9093"]
  /\ exists urls : list URL,
       @update _ Fixture.resolver Fixture.net s tt
       = (mkAlertmanagerSet (addrs s) urls, tt, None).
Proof.
  intros s.
  assert (Hall : Forall (fun addr : string =>
                           (forall a b : string, addr <> a +:+ "+" +:+ b)
                           /\ exists u : URL, @url_Parse Fixture.net addr = inl u)
                   (addrs s)).
  { constructor; [|constructor]. split.
    - apply (cut_None_no_sep "+"). reflexivity.
    - eexists. reflexivity. }
  split; [exact Hall|]. split; [reflexivity|].
  destruct (@update_static_addresses _ Fixture.resolver Fixture.net s tt Hall)
    as (urls & Hu & _).
  exists urls. exact Hu.
Defined.

Example refresh_runs_flaky :
  let st := mkRefreshState (newAlertmanagerSet ["dns+http://am.example/prefix"]) 0 [] in
  let st' := @refresh_runs _ Fixture.flaky Fixture.net [false; true; false] st in
  alertMngrAddrResolutionErrors st' = 2%nat
  /\ map Host (get (alertmgrs st')) = ["10.0.0.1:9093"; "10.0.0.2:9093"].
Proof. vm_compute. split; reflexivity. Qed.

(** ** The receive command *)

Lemma append_empty_r (s : string) : s +:+ EmptyString = s.
Proof.
  induction s as [|c s IH]; [reflexivity|].
  change (String c s +:+ EmptyString) with (String c (s +:+ EmptyString)).
  rewrite IH. reflexivity.
Qed.

Lemma append_snoc (a b : string) (c : ascii) :
  (a +:+ String c EmptyString) +:+ b = a +:+ String c b.
Proof.
  induction a as [|x a IH]; [reflexivity|].
  change (String x a +:+ String c EmptyString)
    with (String x (a +:+ String c EmptyString)).
  change (String x (a +:+ String c EmptyString) +:+ b)
    with (String x ((a +:+ String c EmptyString) +:+ b)).
  rewrite IH. reflexivity.
Qed.

Lemma strings_Split_go_last (sep : ascii) (s : string) :
  forall cur : string,
    exists p : string,
      last (strings_Split_go sep s cur) = Some p
      /\ ((cut sep s = None /\ p = cur +:+ s)
          \/ (cut sep p = None /\ exists pre : string, s = pre +:+ String sep p)).
Proof.
  induction s as [|c r IH]; intros cur; simpl.
  - exists cur. split; [reflexivity|]. left. split; [reflexivity|].
    symmetry. apply append_empty_r.
  - destruct (Ascii.eqb c sep) eqn:Hc.
    + apply Ascii.eqb_eq in Hc. subst c.
      destruct (IH EmptyString) as (p & Hl & Hp).
      exists p. split; [rewrite last_cons, Hl; reflexivity|]. right.
      destruct Hp as [[Hn ->]|[Hn [pre ->]]].
      * split; [exact Hn|]. exists EmptyString. reflexivity.
      * split; [exact Hn|]. exists (String sep pre). reflexivity.
    + destruct (IH (cur +:+ String c EmptyString)) as (p & Hl & Hp).
      exists p. split; [exact Hl|].
      destruct Hp as [[Hn ->]|[Hn [pre ->]]].
      * left. rewrite Hn. split; [reflexivity|]. apply append_snoc.
      * right. split; [exact Hn|]. exists (String c pre). reflexivity.
Qed.

(** X10.  The endpoint made up when [--receive.local-endpoint] is empty
    and the host name is known: [http://<hostname>:<port>/api/v1/receive],
    where the port is the text after the last colon of the remote-write
    address, or the whole address when it has no colon. *)
Theorem local_endpoint_fabricated (hostname remoteWriteAddress : string) :
  hostname <> EmptyString ->
  exists port : string,
    local_endpoint EmptyString hostname None remoteWriteAddress
    = Ret ("http://" +:+ hostname +:+ ":" +:+ port +:+ "/api/v1/receive")
    /\ (forall a b : string, port <> a +:+ ":" +:+ b)
    /\ (remoteWriteAddress = port
        \/ exists pre : string, remoteWriteAddress = pre +:+ ":" +:+ port).
Proof.
  intros Hh. unfold local_endpoint. simpl.
  apply String.eqb_neq in Hh. rewrite Hh. simpl.
  destruct (strings_Split_go_last ":" remoteWriteAddress EmptyString) as (p & Hl & Hp).
  fold (strings_Split remoteWriteAddress ":") in Hl.
  rewrite last_lookup in Hl. rewrite Nat.sub_1_r, Hl.
  exists p. split; [reflexivity|].
  destruct Hp as [[Hn ->]|[Hn [pre ->]]].
  - split; [apply (cut_None_no_sep ":"), Hn|]. left. reflexivity.
  - split; [apply (cut_None_no_sep ":"), Hn|]. right. exists pre. reflexivity.
Qed.

(** X11.  An endpoint given on the command line is used as it is, and the
    host name is then never needed; the block fails exactly when the flag
    is empty and the host name is empty or [os.Hostname] failed; it never
    indexes out of range. *)
Theorem local_endpoint_error_iff
    (local hostname : string) (herr : option error) (remoteWriteAddress : string) :
  (local <> EmptyString ->
   local_endpoint local hostname herr remoteWriteAddress = Ret local)
  /\ ((exists e, local_endpoint local hostname herr remoteWriteAddress = Err e)
      <-> local = EmptyString /\ (hostname = EmptyString \/ herr <> None))
  /\ (forall msg, local_endpoint local hostname herr remoteWriteAddress <> Panic msg).
Proof.
  unfold local_endpoint.
  destruct (String.eqb local EmptyString) eqn:Hl.
  - apply String.eqb_eq in Hl. subst local. split; [congruence|].
    destruct (String.eqb hostname EmptyString) eqn:Hh; simpl.
    + apply String.eqb_eq in Hh. split; [|discriminate].
      split; [auto|eauto].
    + apply String.eqb_neq in Hh.
      destruct herr as [e|]; simpl.
      * split; [|discriminate]. split; [intros _; split; [reflexivity|right; discriminate]|eauto].
      * destruct (strings_Split_go_last ":" remoteWriteAddress EmptyString)
          as (p & Hp & _).
        fold (strings_Split remoteWriteAddress ":") in Hp.
        rewrite last_lookup, <- Nat.sub_1_r in Hp. rewrite Hp.
        split; [|discriminate]. split.
        -- intros [e He]. discriminate He.
        -- intros [_ [Hc|Hc]]; congruence.
  - apply String.eqb_neq in Hl. split; [reflexivity|]. split; [|discriminate].
    split; [intros [e He]; discriminate He|intros [Hc _]; congruence].
Qed.

Lemma local_endpoint_fabricated_witness :
  "node-1" <> EmptyString
  /\ local_endpoint EmptyString "node-1" None "[::1]:19291"
     = Ret "http://node-1:19291/api/v1/receive"
  /\ @registerReceive_setup Fixture.net _ _ Fixture.receive
       (mkReceiveFlags [] EmptyString EmptyString "0.0.0.0:19291") []
     = (["http://node-1:19291/api/v1/receive"], Ret tt)
  /\ exists port : string,
       local_endpoint EmptyString "node-1" None "19291"
       = Ret ("http://" +:+ "node-1" +:+ ":" +:+ port +:+ "/api/v1/receive").
Proof.
  assert (Hh : "node-1" <> EmptyString) by discriminate.
  split; [exact Hh|]. split; [reflexivity|]. split; [reflexivity|].
  destruct (local_endpoint_fabricated "node-1" "19291" Hh) as (port & Hp & _).
  exists port. exact Hp.
Defined.

Lemma hashring_wait_cancel_iff {H : Type} (events : list (hashringEvent H)) :
  hashring_wait_cancel events = true <-> hashringCancel ∈ events.
Proof.
  induction events as [|e rest IH]; simpl.
  - split; [discriminate|]. intros Hin. inversion Hin.
  - destruct e as [h|].
    + rewrite IH. split; [apply list_elem_of_further|].
      intros Hin. apply elem_of_cons in Hin. destruct Hin as [Hc|Hin]; [discriminate|exact Hin].
    + split; [intros _; apply list_elem_of_here|reflexivity].
Qed.

(** X12.  The hashring actor of [runReceive], on any sequence of offers:
    it returns exactly when [cancel] is offered, and the calls of
    [webHandler.Hashring] it makes are fixed by the first two offers.  It
    makes no call exactly when the first offer is not a hashring; one
    call, with the first hashring offered, when no second hashring
    follows it directly; and otherwise two calls, with the first hashring
    and then with nil, whatever is offered after the second hashring: the
    handler is never given a hashring again. *)
Theorem hashring_actor_calls {H : Type} (events : list (hashringEvent H)) :
  let '(calls, returned) := hashring_actor events in
  (returned = true <-> hashringCancel ∈ events)
  /\ ((calls = []
       /\ (forall h rest, events <> hashringUpdate h :: rest))
      \/ (exists h rest, events = hashringUpdate h :: rest /\ calls = [Some h]
            /\ (forall h1 rest1, rest <> hashringUpdate h1 :: rest1))
      \/ (exists h h1 rest, events = hashringUpdate h :: hashringUpdate h1 :: rest
            /\ calls = [Some h; None])).
Proof.
  destruct events as [|[h|] rest]; simpl.
  - split; [|left; split; [reflexivity|discriminate]].
    split; [discriminate|]. intros Hin. inversion Hin.
  - destruct rest as [|[h1|] rest1]; simpl.
    + split; [|right; left; exists h, []; repeat split; congruence].
      split; [discriminate|]. intros Hin. apply elem_of_cons in Hin.
      destruct Hin as [Hc|Hin]; [discriminate|inversion Hin].
    + split; [|right; right; exists h, h1, rest1; auto].
      rewrite hashring_wait_cancel_iff. split.
      * intros Hin. do 2 apply list_elem_of_further. exact Hin.
      * intros Hin. apply elem_of_cons in Hin. destruct Hin as [Hc|Hin]; [discriminate|].
        apply elem_of_cons in Hin. destruct Hin as [Hc|Hin]; [discriminate|exact Hin].
    + split; [|right; left; exists h, (hashringCancel :: rest1); repeat split; congruence].
      split; [intros _|reflexivity]. apply list_elem_of_further, list_elem_of_here.
  - split; [|left; split; [reflexivity|discriminate]].
    split; [intros _; apply list_elem_of_here|reflexivity].
Qed.

(** ** The object-store test harness *)

Lemma ForeachStore_optional_events
    (env : gset string) (created testFn : string -> bool) (stores : list OptionalStore) :
  forall e : TestEvent,
    e ∈ ForeachStore_optional env created testFn stores ->
    match e with
    | tRun n | tClose n | tFatal n =>
        exists s : OptionalStore, s ∈ stores /\ subtest s = n /\ skip_var s ∉ env
    | tLog _ => True
    end.
Proof.
  induction stores as [|s rest IH]; intros e Hin; simpl in Hin; [inversion Hin|].
  assert (Hrest : e ∈ ForeachStore_optional env created testFn rest ->
                  match e with
                  | tRun n | tClose n | tFatal n =>
                      exists s0 : OptionalStore,
                        s0 ∈ s :: rest /\ subtest s0 = n /\ skip_var s0 ∉ env
                  | tLog _ => True
                  end).
  { intros Hr. specialize (IH e Hr).
    destruct e; auto; destruct IH as (s0 & Hs0 & Hn & Hv);
      exists s0; (split; [apply list_elem_of_further, Hs0|auto]). }
  destruct (decide (skip_var s ∈ env)) as [Hskip|Hrun].
  - apply elem_of_cons in Hin. destruct Hin as [->|Hin]; [exact I|exact (Hrest Hin)].
  - assert (Hhere : exists s0 : OptionalStore,
               s0 ∈ s :: rest /\ subtest s0 = subtest s /\ skip_var s0 ∉ env)
      by (exists s; split; [apply list_elem_of_here|auto]).
    destruct (created (subtest s)); simpl in Hin.
    + apply elem_of_cons in Hin. destruct Hin as [->|Hin]; [exact Hhere|].
      apply elem_of_cons in Hin. destruct Hin as [->|Hin]; [exact Hhere|].
      destruct (testFn (subtest s)); [exact (Hrest Hin)|inversion Hin].
    + apply elem_of_cons in Hin. destruct Hin as [->|Hin]; [exact Hhere|inversion Hin].
Qed.

Lemma optional_stores_subtest_inj (s1 s2 : OptionalStore) :
  s1 ∈ optional_stores -> s2 ∈ optional_stores -> subtest s1 = subtest s2 -> s1 = s2.
Proof.
  unfold optional_stores. intros H1 H2.
  repeat (apply elem_of_cons in H1; destruct H1 as [->|H1]);
    try (inversion H1; fail);
    repeat (apply elem_of_cons in H2; destruct H2 as [->|H2]);
    try (inversion H2; fail);
    simpl; intros Heq; try reflexivity; discriminate Heq.
Qed.

(** X13.  A store whose [THANOS_SKIP_..._TESTS] variable is present in
    the environment is left alone by [ForeachStore]: no test bucket is made
    for it (so none can fail to be made), its subtest is not run, nothing
    is closed. *)
Theorem ForeachStore_skips
    (env : gset string) (created testFn : string -> bool) (s : OptionalStore) :
  s ∈ optional_stores ->
  skip_var s ∈ env ->
  (tRun (subtest s) ∉ ForeachStore env created testFn)
  /\ (tClose (subtest s) ∉ ForeachStore env created testFn)
  /\ (tFatal (subtest s) ∉ ForeachStore env created testFn).
Proof.
  intros Hs Hskip.
  assert (Hopt : forall e : TestEvent,
             match e with
             | tRun n | tClose n | tFatal n => n = subtest s
             | tLog _ => False
             end ->
             e ∉ ForeachStore_optional env created testFn optional_stores).
  { intros e He Hin. apply ForeachStore_optional_events in Hin.
    destruct e as [n|n|msg|n]; try contradiction; subst n;
      destruct Hin as (s0 & Hs0 & Hn & Hv);
      rewrite (optional_stores_subtest_inj s0 s Hs0 Hs Hn) in Hv; contradiction. }
  assert (Hname : subtest s <> "inmem").
  { unfold optional_stores in Hs.
    repeat (apply elem_of_cons in Hs; destruct Hs as [->|Hs]);
      try discriminate. inversion Hs. }
  unfold ForeachStore. repeat split; intros Hin;
    apply elem_of_cons in Hin; destruct Hin as [Heq|Hin]; try congruence;
    (destruct (testFn "inmem"); [|inversion Hin]);
    (eapply Hopt; [|exact Hin]); reflexivity.
Qed.

Lemma ForeachStore_optional_runs
    (env : gset string) (created testFn : string -> bool) (stores : list OptionalStore) :
  forall (i : nat) (name : string),
    ForeachStore_optional env created testFn stores !! i = Some (tRun name) ->
    ForeachStore_optional env created testFn stores !! S i = Some (tClose name)
    /\ (testFn name = false ->
        length (ForeachStore_optional env created testFn stores) = S (S i)).
Proof.
  induction stores as [|s rest IH]; intros i name Hi; simpl in *; [discriminate|].
  destruct (decide (skip_var s ∈ env)).
  - destruct i as [|i]; [discriminate|]. simpl in *.
    destruct (IH i name Hi) as [Hc Hlen]. split; [exact Hc|].
    intros Hf. rewrite (Hlen Hf). reflexivity.
  - destruct (created (subtest s)); simpl in *.
    + destruct i as [|[|i]]; simpl in *.
      * inversion Hi; subst. split; [reflexivity|].
        intros Hf. rewrite Hf. reflexivity.
      * discriminate.
      * destruct (testFn (subtest s)); [|discriminate].
        destruct (IH i name Hi) as [Hc Hlen]. split; [exact Hc|].
        intros Hf. rewrite (Hlen Hf). reflexivity.
    + destruct i as [|i]; discriminate.
Qed.

(** X14.  The order of a run of [ForeachStore].  It starts with the
    in-memory store, and nothing follows when that subtest fails.  Every
    later subtest is followed at once by the close of its test bucket,
    whether it passed or not, and when it failed that close is the last
    thing the run does. *)
Theorem ForeachStore_close_and_stop
    (env : gset string) (created testFn : string -> bool) :
  let trace := ForeachStore env created testFn in
  trace !! 0%nat = Some (tRun "inmem")
  /\ (testFn "inmem" = false -> trace = [tRun "inmem"])
  /\ forall (i : nat) (name : string),
       trace !! S i = Some (tRun name) ->
       trace !! S (S i) = Some (tClose name)
       /\ (testFn name = false -> length trace = S (S (S i))).
Proof.
  unfold ForeachStore. generalize optional_stores. intros stores.
  split; [reflexivity|]. split.
  - intros ->. reflexivity.
  - intros i name Hi. simpl in *.
    destruct (testFn "inmem"); [|discriminate].
    destruct (ForeachStore_optional_runs env created testFn stores i name Hi)
      as [Hc Hlen].
    split; [exact Hc|]. intros Hf. simpl. rewrite (Hlen Hf). reflexivity.
Qed.

Lemma ForeachStore_optional_fatal
    (env : gset string) (created testFn : string -> bool) (stores : list OptionalStore) :
  forall (i : nat) (name : string),
    ForeachStore_optional env created testFn stores !! i = Some (tFatal name) ->
    created name = false
    /\ length (ForeachStore_optional env created testFn stores) = S i.
Proof.
  induction stores as [|s rest IH]; intros i name Hi; simpl in *; [discriminate|].
  destruct (decide (skip_var s ∈ env)).
  - destruct i as [|i]; [discriminate|]. simpl in *.
    destruct (IH i name Hi) as [Hc Hlen]. rewrite Hlen. auto.
  - destruct (created (subtest s)) eqn:Hcr; simpl in *.
    + destruct i as [|[|i]]; simpl in *; try discriminate.
      destruct (testFn (subtest s)); [|discriminate].
      destruct (IH i name Hi) as [Hc Hlen]. rewrite Hlen. auto.
    + destruct i as [|i]; [|discriminate]. inversion Hi; subst. auto.
Qed.

Lemma ForeachStore_optional_fatal_at
    (env : gset string) (created testFn : string -> bool)
    (pre : list OptionalStore) (s : OptionalStore) (post : list OptionalStore) :
  Forall (fun p => skip_var p ∈ env
                   \/ (created (subtest p) = true /\ testFn (subtest p) = true)) pre ->
  skip_var s ∉ env ->
  created (subtest s) = false ->
  ForeachStore_optional env created testFn (pre ++ s :: post)
  = concat (map (fun p =>
                   if decide (skip_var p ∈ env)
                   then [tLog (skip_var p +:+ " envvar present. Skipping test against "
                               +:+ log_name p +:+ ".")]
                   else [tRun (subtest p); tClose (subtest p)]) pre)
    ++ [tFatal (subtest s)].
Proof.
  intros Hpre Hskip Hcr. induction Hpre as [|p pre Hp Hpre IH]; simpl.
  - destruct (decide (skip_var s ∈ env)); [contradiction|]. rewrite Hcr. reflexivity.
  - destruct (decide (skip_var p ∈ env)) as [Hin|Hnin]; simpl.
    + rewrite IH. reflexivity.
    + destruct Hp as [Hin|[Hc Ht]]; [contradiction|].
      rewrite Hc, Ht. simpl. rewrite IH. reflexivity.
Qed.

Lemma optional_blocks_events (env : gset string) (pre : list OptionalStore) (e : TestEvent) :
  e ∈ concat (map (fun p =>
                     if decide (skip_var p ∈ env)
                     then [tLog (skip_var p +:+ " envvar present. Skipping test against "
                                 +:+ log_name p +:+ ".")]
                     else [tRun (subtest p); tClose (subtest p)]) pre) ->
  match e with
  | tRun n | tClose n => n ∈ map subtest pre
  | tLog _ => True
  | tFatal _ => False
  end.
Proof.
  induction pre as [|p pre IH]; simpl; intros Hin; [inversion Hin|].
  apply elem_of_app in Hin. destruct Hin as [Hin|Hin].
  - destruct (decide (skip_var p ∈ env)).
    + apply elem_of_cons in Hin. destruct Hin as [->|Hin]; [exact I|inversion Hin].
    + apply elem_of_cons in Hin. destruct Hin as [->|Hin]; [apply list_elem_of_here|].
      apply elem_of_cons in Hin. destruct Hin as [->|Hin]; [apply list_elem_of_here|].
      inversion Hin.
  - specialize (IH Hin). destruct e; auto; apply list_elem_of_further, IH.
Qed.

Lemma optional_stores_names_NoDup : NoDup ("inmem" :: map subtest optional_stores).
Proof.
  unfold optional_stores. simpl.
  repeat (apply NoDup_cons; split;
          [intros Hin; repeat (apply elem_of_cons in Hin; destruct Hin as [Hin|Hin];
                               [discriminate Hin|]); inversion Hin|]).
  apply NoDup_nil. exact I.
Qed.

(** X15.  When the test bucket of a store cannot be made, the run of
    [ForeachStore] ends there, and only then does a run end fatally.  A
    fatal event in a run is for a store whose bucket cannot be made and
    is the last event of the run.  Conversely, when the in-memory subtest
    passes, every optional store before [s] is skipped or has its bucket
    made and passes, and [s] is not skipped but its bucket cannot be
    made, the run is exactly: the in-memory subtest, then for each store
    before [s] its log line (skipped) or its subtest and the close of its
    bucket, then the fatal event for [s].  So the subtest of [s] is not
    run, nothing is closed for it, and no later store is tried. *)
Theorem ForeachStore_fatal_is_last
    (env : gset string) (created testFn : string -> bool) :
  let trace := ForeachStore env created testFn in
  (forall (i : nat) (name : string),
      trace !! i = Some (tFatal name) ->
      created name = false /\ length trace = S i)
  /\ forall (pre : list OptionalStore) (s : OptionalStore) (post : list OptionalStore),
       optional_stores = pre ++ s :: post ->
       testFn "inmem" = true ->
       Forall (fun p => skip_var p ∈ env
                        \/ (created (subtest p) = true /\ testFn (subtest p) = true)) pre ->
       skip_var s ∉ env ->
       created (subtest s) = false ->
       trace
       = tRun "inmem"
         :: concat (map (fun p =>
                           if decide (skip_var p ∈ env)
                           then [tLog (skip_var p
                                       +:+ " envvar present. Skipping test against "
                                       +:+ log_name p +:+ ".")]
                           else [tRun (subtest p); tClose (subtest p)]) pre)
         ++ [tFatal (subtest s)]
       /\ (tRun (subtest s) ∉ trace)
       /\ (tClose (subtest s) ∉ trace)
       /\ forall p : OptionalStore,
            p ∈ post ->
            (tRun (subtest p) ∉ trace)
            /\ (tClose (subtest p) ∉ trace)
            /\ (tFatal (subtest p) ∉ trace).
Proof.
  intros trace. split.
  - subst trace. unfold ForeachStore. generalize optional_stores. intros stores i name.
    destruct i as [|i]; [discriminate|]. simpl.
    destruct (testFn "inmem"); [|discriminate]. intros Hi.
    destruct (ForeachStore_optional_fatal env created testFn stores i name Hi)
      as [Hc Hlen].
    rewrite Hlen. auto.
  - intros pre s post Hstores Hinmem Hpre Hskip Hcr.
    assert (Htrace : trace
                     = tRun "inmem"
                       :: concat (map (fun p =>
                                         if decide (skip_var p ∈ env)
                                         then [tLog (skip_var p
                                                     +:+ " envvar present. Skipping test against "
                                                     +:+ log_name p +:+ ".")]
                                         else [tRun (subtest p); tClose (subtest p)]) pre)
                       ++ [tFatal (subtest s)]).
    { subst trace. unfold ForeachStore. rewrite Hinmem, Hstores.
      rewrite (ForeachStore_optional_fatal_at env created testFn pre s post Hpre Hskip Hcr).
      reflexivity. }
    split; [exact Htrace|].
    pose proof optional_stores_names_NoDup as Hnd.
    rewrite Hstores, map_app in Hnd. simpl in Hnd.
    apply NoDup_cons in Hnd. destruct Hnd as [Hinm Hnd].
    apply NoDup_app in Hnd. destruct Hnd as (_ & Hdisj & Hnd).
    apply NoDup_cons in Hnd. destruct Hnd as [Hs_post _].
    assert (Hev : forall e : TestEvent,
               e ∈ trace ->
               match e with
               | tRun n | tClose n => n = "inmem" \/ n ∈ map subtest pre
               | tLog _ => True
               | tFatal n => n = subtest s
               end).
    { intros e He. rewrite Htrace in He.
      apply elem_of_cons in He. destruct He as [->|He]; [left; reflexivity|].
      apply elem_of_app in He. destruct He as [He|He].
      - apply optional_blocks_events in He. destruct e; auto; contradiction.
      - apply elem_of_cons in He. destruct He as [->|He]; [reflexivity|inversion He]. }
    assert (Hs_inm : subtest s <> "inmem").
    { intros Heq. apply Hinm. rewrite <- Heq.
      apply elem_of_app. right. apply list_elem_of_here. }
    assert (Hs_pre : subtest s ∉ map subtest pre).
    { intros Hin. apply (Hdisj _ Hin). apply list_elem_of_here. }
    split; [intros Hin; destruct (Hev _ Hin) as [Heq|Hin']; [exact (Hs_inm Heq)|exact (Hs_pre Hin')]|].
    split; [intros Hin; destruct (Hev _ Hin) as [Heq|Hin']; [exact (Hs_inm Heq)|exact (Hs_pre Hin')]|].
    intros p Hp.
    assert (Hp_post : subtest p ∈ map subtest post)
      by (apply (list_elem_of_fmap_2 subtest), Hp).
    assert (Hp_inm : subtest p <> "inmem").
    { intros Heq. apply Hinm. rewrite <- Heq.
      apply elem_of_app. right. apply list_elem_of_further, Hp_post. }
    assert (Hp_pre : subtest p ∉ map subtest pre).
    { intros Hin. apply (Hdisj _ Hin). apply list_elem_of_further, Hp_post. }
    split; [intros Hin; destruct (Hev _ Hin) as [Heq|Hin']; [exact (Hp_inm Heq)|exact (Hp_pre Hin')]|].
    split; [intros Hin; destruct (Hev _ Hin) as [Heq|Hin']; [exact (Hp_inm Heq)|exact (Hp_pre Hin')]|].
    intros Hin. apply Hev in Hin. apply Hs_post. rewrite <- Hin. exact Hp_post.
Qed.

Lemma ForeachStore_skips_witness :
  let env : gset string := {["THANOS_SKIP_GCS_TESTS"]} in
  let gcs := mkOptionalStore "THANOS_SKIP_GCS_TESTS" "gcs" "GCS" in
  gcs ∈ optional_stores
  /\ skip_var gcs ∈ env
  /\ (tRun "gcs" ∉ ForeachStore env (fun _ => true) (fun _ => true))
  /\ ForeachStore env (fun _ => true) (fun n => negb (String.eqb n "azure"))
     = [tRun "inmem";
        tLog "THANOS_SKIP_GCS_TESTS envvar present. Skipping test against GCS.";
        tRun "aws s3"; tClose "aws s3"; tRun "azure"; tClose "azure"].
Proof.
  intros env gcs.
  assert (Hin : gcs ∈ optional_stores) by apply list_elem_of_here.
  assert (Hskip : skip_var gcs ∈ env) by (apply elem_of_singleton; reflexivity).
  split; [exact Hin|]. split; [exact Hskip|]. split; [|vm_compute; reflexivity].
  exact (proj1 (ForeachStore_skips env (fun _ => true) (fun _ => true) gcs Hin Hskip)).
Defined.

Lemma ForeachStore_fatal_is_last_witness :
  let env : gset string := {["THANOS_SKIP_GCS_TESTS"]} in
  let created := fun n => negb (String.eqb n "azure") in
  let testFn := fun _ : string => true in
  let trace := ForeachStore env created testFn in
  trace !! 4%nat = Some (tFatal "azure")
  /\ length trace = 5%nat
  /\ trace = [tRun "inmem";
              tLog "THANOS_SKIP_GCS_TESTS envvar present. Skipping test against GCS.";
              tRun "aws s3"; tClose "aws s3"; tFatal "azure"]
  /\ (tRun "azure" ∉ trace)
  /\ (tRun "swift" ∉ trace).
Proof.
  intros env created testFn trace.
  destruct (ForeachStore_fatal_is_last env created testFn) as [Hlast Hfatal].
  assert (Hi : trace !! 4%nat = Some (tFatal "azure")) by (vm_compute; reflexivity).
  split; [exact Hi|]. split; [exact (proj2 (Hlast 4%nat "azure" Hi))|].
  assert (Hgcs : skip_var (mkOptionalStore "THANOS_SKIP_GCS_TESTS" "gcs" "GCS") ∈ env)
    by (apply elem_of_singleton; reflexivity).
  assert (Hazure : skip_var (mkOptionalStore "THANOS_SKIP_AZURE_TESTS" "azure" "Azure") ∉ env).
  { intros Hin. apply elem_of_singleton in Hin. discriminate Hin. }
  assert (Hpre : Forall (fun p => skip_var p ∈ env
                                  \/ (created (subtest p) = true
                                      /\ testFn (subtest p) = true))
                    [mkOptionalStore "THANOS_SKIP_GCS_TESTS" "gcs" "GCS";
                     mkOptionalStore "THANOS_SKIP_S3_AWS_TESTS" "aws s3" "S3 AWS"]).
  { constructor; [left; exact Hgcs|]. constructor; [right; split; reflexivity|].
    constructor. }
  destruct (Hfatal
              [mkOptionalStore "THANOS_SKIP_GCS_TESTS" "gcs" "GCS";
               mkOptionalStore "THANOS_SKIP_S3_AWS_TESTS" "aws s3" "S3 AWS"]
              (mkOptionalStore "THANOS_SKIP_AZURE_TESTS" "azure" "Azure")
              [mkOptionalStore "THANOS_SKIP_SWIFT_TESTS" "swift" "swift";
               mkOptionalStore "THANOS_SKIP_TENCENT_COS_TESTS" "Tencent cos" "Tencent COS"]
              eq_refl eq_refl Hpre Hazure eq_refl)
    as (Htrace & Hrun & _ & Hpost).
  split; [vm_compute; reflexivity|]. split; [exact Hrun|].
  exact (proj1 (Hpost (mkOptionalStore "THANOS_SKIP_SWIFT_TESTS" "swift" "swift")
                  (list_elem_of_here _ _))).
Defined.

(** ** More on start-up *)

Section SetupMore.
Context {GN : GoNet} {RG : Type} {RR : RuleRuntime RG}.


Lemma lookupQueries_scan_Some (qs : list string) :
  forall (seen : gset string) (q : string),
    lookupQueries_scan qs seen = Some q ->
    exists pre post : list string,
      qs = pre ++ q :: post /\ NoDup pre
      /\ (forall x, x ∈ pre -> x ∉ seen)
      /\ (q ∈ pre \/ q ∈ seen).
Proof.
  induction qs as [|x rest IH]; intros seen q Hs; simpl in Hs; [discriminate|].
  destruct (decide (x ∈ seen)) as [Hin|Hout].
  - inversion Hs; subst. exists [], rest. repeat split; auto.
    + constructor.
    + intros y Hy. inversion Hy.
  - destruct (IH _ _ Hs) as (pre & post & -> & Hnd & Hfresh & Hq).
    exists (x :: pre), post. split; [reflexivity|]. split; [|split].
    + apply NoDup_cons. split; [|exact Hnd].
      intros Hx. apply (Hfresh x Hx). set_solver.
    + intros y Hy. apply elem_of_cons in Hy. destruct Hy as [->|Hy]; [exact Hout|].
      specialize (Hfresh y Hy). set_solver.
    + destruct Hq as [Hq|Hq]; [left; apply list_elem_of_further, Hq|].
      apply elem_of_union in Hq. destruct Hq as [Hq|Hq]; [|right; exact Hq].
      apply elem_of_singleton in Hq. subst. left. apply list_elem_of_here.
Qed.



(** X17.  When the labels and the alert query URL parse and an address
    is repeated among the [--query] values, the error names the first
    address that repeats an earlier one, and the run group is untouched:
    this check comes before the one on missing addresses and before
    [runRule]'s check on empty addresses. *)
Theorem registerRule_setup_first_duplicate
    (flags : RuleFlags) (g : RG) (lset : Labels) (u : URL) :
  parseFlagLabels (labelStrs flags) = inl lset ->
  url_Parse (alertQueryURL flags) = inl u ->
  ~ NoDup (queries flags) ->
  exists (pre post : list string) (q : string),
    queries flags = pre ++ q :: post
    /\ NoDup pre /\ q ∈ pre
    /\ registerRule_setup flags g =
       (g, Some (errorString ("Address " +:+ q +:+ " is duplicated for --query flag."))).
Proof.
  intros Hl Hu Hdup. unfold registerRule_setup. rewrite Hl, Hu.
  destruct (lookupQueries_scan (queries flags) ∅) as [q|] eqn:Hs.
  - destruct (lookupQueries_scan_Some _ _ _ Hs) as (pre & post & Hq & Hnd & _ & Hin).
    exists pre, post, q. repeat split; auto.
    destruct Hin as [Hin|Hin]; [exact Hin|]. set_solver.
  - exfalso. apply Hdup. exact (lookupQueries_scan_None _ _ Hs).
Qed.

End SetupMore.


Lemma registerRule_setup_first_duplicate_witness :
  let labels := ["replica=" +:+ Fixture.dquote +:+ "A" +:+ Fixture.dquote] in
  let flags := mkRuleFlags labels "http://q.example" ["a:1"; "b:2"; "b:2"; "a:1"] [] in
  ~ NoDup (queries flags)
  /\ @registerRule_setup Fixture.net _ Fixture.runtime flags []
     = ([], Some (errorString "Address b:2 is duplicated for --query flag."))
  /\ exists (pre post : list string) (q : string),
       queries flags = pre ++ q :: post /\ NoDup pre /\ q ∈ pre.
Proof.
  intros labels flags.
  assert (Hdup : ~ NoDup (queries flags)).
  { intros Hnd. apply NoDup_cons in Hnd. destruct Hnd as [Hnot _].
    apply Hnot. do 2 apply list_elem_of_further. apply list_elem_of_here. }
  split; [exact Hdup|]. split; [reflexivity|].
  destruct (@registerRule_setup_first_duplicate Fixture.net _ Fixture.runtime flags []
              [("replica", "A")] (URL_lit "http" "q.example" EmptyString None)
              eq_refl eq_refl Hdup)
    as (pre & post & q & Hq & Hnd & Hin & _).
  exists pre, post, q. auto.
Defined.

(** ** More on the reload loop *)

Lemma stamp_groups_lookup (s : PartialResponseStrategy) (groups : list Group) :
  forall (acc : gmap (string * string * string) nat) (k : string * string * string) (n : nat),
    fold_left
      (fun acc1 group =>
         <[(PartialResponseStrategy_String s, g_File group, g_Name group)
           := length (g_Rules group)]> acc1)
      groups acc !! k = Some n ->
    acc !! k = Some n
    \/ exists g : Group,
         g ∈ groups
         /\ k = (PartialResponseStrategy_String s, g_File g, g_Name g)
         /\ n = length (g_Rules g).
Proof.
  induction groups as [|g rest IH]; intros acc k n Hk; simpl in Hk; [auto|].
  apply IH in Hk. destruct Hk as [Hk|(g0 & Hg0 & Hkey & Hn)].
  - rewrite lookup_insert in Hk. case_decide as Hd.
    + right. exists g. split; [apply list_elem_of_here|]. split; [auto|congruence].
    + auto.
  - right. exists g0. split; [apply list_elem_of_further, Hg0|auto].
Qed.

Lemma stamp_groups_covers (s : PartialResponseStrategy) (groups : list Group) :
  forall (acc : gmap (string * string * string) nat) (k : string * string * string),
    is_Some (acc !! k)
    \/ (exists g : Group,
          g ∈ groups /\ k = (PartialResponseStrategy_String s, g_File g, g_Name g)) ->
    is_Some
      (fold_left
         (fun acc1 group =>
            <[(PartialResponseStrategy_String s, g_File group, g_Name group)
              := length (g_Rules group)]> acc1)
         groups acc !! k).
Proof.
  induction groups as [|g rest IH]; intros acc k Hk; simpl.
  - destruct Hk as [Hk|(g0 & Hg0 & _)]; [exact Hk|inversion Hg0].
  - apply IH. destruct Hk as [Hk|(g0 & Hg0 & Hkey)].
    + left. rewrite lookup_insert. case_decide; [eauto|exact Hk].
    + apply elem_of_cons in Hg0. destruct Hg0 as [->|Hg0].
      * left. subst k. rewrite lookup_insert_eq. eauto.
      * right. eauto.
Qed.

Lemma stamp_managers_lookup (m : Managers) :
  forall (acc : gmap (string * string * string) nat) (k : string * string * string) (n : nat),
    fold_left
      (fun acc0 (sm : PartialResponseStrategy * list Group) =>
         let (s, groups) := sm in
         fold_left
           (fun acc1 group =>
              <[(PartialResponseStrategy_String s, g_File group, g_Name group)
                := length (g_Rules group)]> acc1)
           groups acc0)
      m acc !! k = Some n ->
    acc !! k = Some n
    \/ exists (s : PartialResponseStrategy) (groups : list Group) (g : Group),
         (s, groups) ∈ m /\ g ∈ groups
         /\ k = (PartialResponseStrategy_String s, g_File g, g_Name g)
         /\ n = length (g_Rules g).
Proof.
  induction m as [|[s groups] rest IH]; intros acc k n Hk; simpl in Hk; [auto|].
  apply IH in Hk. destruct Hk as [Hk|(s0 & gs0 & g0 & Hm & Hg & Hkey & Hn)].
  - apply stamp_groups_lookup in Hk. destruct Hk as [Hk|(g & Hg & Hkey & Hn)]; [auto|].
    right. exists s, groups, g. split; [apply list_elem_of_here|auto].
  - right. exists s0, gs0, g0. split; [apply list_elem_of_further, Hm|auto].
Qed.

Lemma stamp_managers_covers (m : Managers) :
  forall (acc : gmap (string * string * string) nat) (k : string * string * string),
    is_Some (acc !! k)
    \/ (exists (s : PartialResponseStrategy) (groups : list Group) (g : Group),
          (s, groups) ∈ m /\ g ∈ groups
          /\ k = (PartialResponseStrategy_String s, g_File g, g_Name g)) ->
    is_Some
      (fold_left
         (fun acc0 (sm : PartialResponseStrategy * list Group) =>
            let (s, groups) := sm in
            fold_left
              (fun acc1 group =>
                 <[(PartialResponseStrategy_String s, g_File group, g_Name group)
                   := length (g_Rules group)]> acc1)
              groups acc0)
         m acc !! k).
Proof.
  induction m as [|[s groups] rest IH]; intros acc k Hk; simpl.
  - destruct Hk as [Hk|(s0 & gs0 & g0 & Hm & _)]; [exact Hk|inversion Hm].
  - apply IH. destruct Hk as [Hk|(s0 & gs0 & g0 & Hm & Hg & Hkey)].
    + left. apply stamp_groups_covers. auto.
    + apply elem_of_cons in Hm. destruct Hm as [Heq|Hm].
      * inversion Heq; subst. left. apply stamp_groups_covers. right. eauto.
      * right. exists s0, gs0, g0. auto.
Qed.

(** X18.  What [thanos_rule_loaded_rules] holds after it has been reset
    and stamped: a series for every live group, under the upper-case name
    of its strategy, its file and its name, and no other series; the value
    of a series is the number of rules of a live group with that file and
    name.  Series of groups that are gone do not survive a reload. *)
Theorem stamp_rulesLoaded_series (m : Managers) :
  (forall (strategy file name : string) (n : nat),
     stamp_rulesLoaded m !! (strategy, file, name) = Some n ->
     exists (s : PartialResponseStrategy) (groups : list Group) (g : Group),
       (s, groups) ∈ m /\ g ∈ groups
       /\ strategy = PartialResponseStrategy_String s
       /\ file = g_File g /\ name = g_Name g
       /\ n = length (g_Rules g))
  /\ (forall (s : PartialResponseStrategy) (groups : list Group) (g : Group),
        (s, groups) ∈ m -> g ∈ groups ->
        is_Some (stamp_rulesLoaded m
                   !! (PartialResponseStrategy_String s, g_File g, g_Name g))).
Proof.
  unfold stamp_rulesLoaded. split.
  - intros strategy file name n Hk. apply stamp_managers_lookup in Hk.
    destruct Hk as [Hk|(s & groups & g & Hm & Hg & Hkey & Hn)].
    + rewrite lookup_empty in Hk. discriminate.
    + inversion Hkey; subst. exists s, groups, g. repeat split; auto.
  - intros s groups g Hm Hg. apply stamp_managers_covers. right.
    exists s, groups, g. auto.
Qed.

Lemma elem_of_concat {A : Type} (x : A) (ls : list (list A)) :
  x ∈ concat ls <-> exists l : list A, x ∈ l /\ l ∈ ls.
Proof.
  induction ls as [|a ls IH]; simpl.
  - split; [intros Hin; inversion Hin|intros (l & _ & Hl); inversion Hl].
  - rewrite elem_of_app, IH. split.
    + intros [Ha|(l & Hx & Hl)]; [exists a; split; [exact Ha|apply list_elem_of_here]|].
      exists l. split; [exact Hx|apply list_elem_of_further, Hl].
    + intros (l & Hx & Hl). apply elem_of_cons in Hl.
      destruct Hl as [->|Hl]; [left; exact Hx|right; eauto].
Qed.

Section ReloadMore.
Context {FS : Type} {RF : RuleFS FS}.

Lemma glob_ruleFiles_concat (fs : FS) (ruleFiles : list string) :
  forall (files : list string) (lg : list LogEntry),
    fst (glob_ruleFiles fs ruleFiles files lg) =
    files ++ concat (omap (fun pat => match filepath_Glob fs pat with
                                      | inl found => Some found
                                      | inr _ => None
                                      end) ruleFiles)
    /\ exists errs : list LogEntry,
         snd (glob_ruleFiles fs ruleFiles files lg) = lg ++ errs
         /\ Forall (fun e => lvl e = LevelError) errs
         /\ length errs =
            length (List.filter
                      (fun pat => match filepath_Glob fs pat with
                                  | inr _ => true
                                  | inl _ => false
                                  end) ruleFiles).
Proof.
  induction ruleFiles as [|pat rest IH]; intros files lg; simpl.
  - rewrite app_nil_r. split; [reflexivity|]. exists []. rewrite app_nil_r.
    repeat split. constructor.
  - destruct (filepath_Glob fs pat) as [found|err] eqn:Hg; simpl.
    + destruct (IH (files ++ found) lg) as [Hf (errs & Hl & Hlv & Hn)].
      split; [rewrite Hf, <- app_assoc; reflexivity|].
      exists errs. split; [exact Hl|]. split; [exact Hlv|]. exact Hn.
    + match goal with |- context [glob_ruleFiles fs rest files ?l] =>
        destruct (IH files l) as [Hf (errs & Hl & Hlv & Hn)] end.
      split; [exact Hf|].
      eexists (_ :: errs). split; [rewrite Hl, <- app_assoc; reflexivity|].
      split; [constructor; [reflexivity|exact Hlv]|].
      simpl. rewrite Hn. reflexivity.
Qed.

(** X19.  The rule files of a reload: a file is taken exactly when some
    configured pattern that [filepath.Glob] accepts matches it, so the
    matches of the good patterns are all kept when other patterns are bad;
    a bad pattern only adds one error line to the log, and the log is
    otherwise as it was. *)
Theorem glob_ruleFiles_keeps_good_patterns
    (fs : FS) (ruleFiles : list string) (lg : list LogEntry) :
  let '(files, lg') := glob_ruleFiles fs ruleFiles [] lg in
  (forall f : string,
     f ∈ files <->
     exists (pat : string) (found : list string),
       pat ∈ ruleFiles /\ filepath_Glob fs pat = inl found /\ f ∈ found)
  /\ exists errs : list LogEntry,
       lg' = lg ++ errs
       /\ Forall (fun e => lvl e = LevelError) errs
       /\ length errs =
          length (List.filter
                    (fun pat => match filepath_Glob fs pat with
                                | inr _ => true
                                | inl _ => false
                                end) ruleFiles).
Proof.
  pose proof (glob_ruleFiles_concat fs ruleFiles [] lg) as [Hf Hl].
  destruct (glob_ruleFiles fs ruleFiles [] lg) as [files lg']. cbn [fst snd] in *.
  split; [|exact Hl]. subst files. simpl. intros f.
  rewrite elem_of_concat. split.
  - intros (found & Hin & Hfound). apply list_elem_of_omap in Hfound.
    destruct Hfound as (pat & Hpat & Hg).
    destruct (filepath_Glob fs pat) as [found0|] eqn:Hglob; [|discriminate].
    inversion Hg; subst. eauto.
  - intros (pat & found & Hpat & Hg & Hin). exists found. split; [exact Hin|].
    apply list_elem_of_omap. exists pat. rewrite Hg. auto.
Qed.

Lemma reload_loop_events (dataDir : string) (evalInterval : Z) (ruleFiles : list string)
    (evs : list (FS * Z)) (tail : list (option (FS * Z))) :
  forall st : ReloadState,
    reload_loop dataDir evalInterval ruleFiles (map Some evs ++ tail) st =
    reload_loop dataDir evalInterval ruleFiles tail
      (fold_left (fun st0 ev => reload_once dataDir evalInterval ruleFiles
                                  (fst ev) (snd ev) st0) evs st).
Proof.
  induction evs as [|[fs now] rest IH]; intros st; simpl; [reflexivity|]. apply IH.
Qed.

(** X20.  The reload loop on any sequence of events: the reloads are run
    one after the other, each on the state the one before left; at the
    close of [cancel] the loop returns the error "canceled" and reload
    events that come later are not served. *)
Theorem reload_loop_until_cancel
    (dataDir : string) (evalInterval : Z) (ruleFiles : list string)
    (evs : list (FS * Z)) (later : list (option (FS * Z))) (st : ReloadState) :
  let after :=
    fold_left (fun st0 ev => reload_once dataDir evalInterval ruleFiles
                               (fst ev) (snd ev) st0) evs st in
  reload_loop dataDir evalInterval ruleFiles (map Some evs ++ None :: later) st
  = (after, Some (errorString "canceled"))
  /\ reload_loop dataDir evalInterval ruleFiles (map Some evs) st = (after, None).
Proof.
  intros after. split.
  - rewrite reload_loop_events. reflexivity.
  - rewrite <- (app_nil_r (map Some evs)), reload_loop_events. reflexivity.
Qed.

End ReloadMore.

(** ** More on the notify callback *)

Section NotifyMore.
Context {GN : GoNet} {Q : Type} {AQ : AlertQueue Q}.

(** X21.  [notify] calls [Push] once whatever the alerts are, and the
    batch it pushes holds exactly one notification for each alert that is
    not Pending, in the order of the alerts, with that alert's [FiredAt],
    labels and annotations: as many notifications as there are such
    alerts, so at most one per alert.  Every alert that is Firing or
    Inactive has its notification in the batch, and the batch is empty
    exactly when every alert is Pending (in particular when there is
    none). *)
Theorem notify_empty_batch_iff_all_pending
    (alertQueryURL : URL) (alertQ : Q) (expr : string) (alerts : list rules_Alert) :
  exists res : list alert_Alert,
    notify alertQueryURL alertQ expr alerts = Push alertQ res
    /\ Forall2
         (fun (alrt : rules_Alert) (a : alert_Alert) =>
            StartsAt a = FiredAt alrt
            /\ a_Labels a = ra_Labels alrt
            /\ a_Annotations a = ra_Annotations alrt)
         (filter (fun alrt => State alrt <> StatePending) alerts) res
    /\ length res = length (filter (fun alrt => State alrt <> StatePending) alerts)
    /\ (length res <= length alerts)%nat
    /\ (forall alrt : rules_Alert,
          alrt ∈ alerts ->
          State alrt <> StatePending ->
          exists a : alert_Alert,
            a ∈ res
            /\ StartsAt a = FiredAt alrt
            /\ a_Labels a = ra_Labels alrt
            /\ a_Annotations a = ra_Annotations alrt)
    /\ (res = [] <-> Forall (fun alrt => State alrt = StatePending) alerts).
Proof.
  exists (map (notify_alert alertQueryURL expr)
            (filter (fun alrt => State alrt <> StatePending) alerts)).
  assert (Hfields : forall alrt : rules_Alert,
             StartsAt (notify_alert alertQueryURL expr alrt) = FiredAt alrt
             /\ a_Labels (notify_alert alertQueryURL expr alrt) = ra_Labels alrt
             /\ a_Annotations (notify_alert alertQueryURL expr alrt) = ra_Annotations alrt).
  { intros alrt. unfold notify_alert. cbv beta zeta.
    destruct (IsZero (ResolvedAt alrt));
      cbn [negb StartsAt a_Labels a_Annotations]; auto. }
  split; [unfold notify; rewrite notify_loop_filter; reflexivity|].
  split.
  { apply Forall2_fmap_r, Forall_Forall2_diag, Forall_forall. intros alrt _.
    apply Hfields. }
  split; [apply length_map|].
  split; [rewrite length_map; apply length_filter|].
  split.
  { intros alrt Hin Hn. exists (notify_alert alertQueryURL expr alrt).
    split; [|apply Hfields].
    apply (list_elem_of_fmap_2 (notify_alert alertQueryURL expr)).
    apply list_elem_of_filter. auto. }
  split.
  - intros Hnil. apply fmap_nil_inv in Hnil.
    apply Forall_forall. intros alrt Hin.
    destruct (decide (State alrt = StatePending)) as [Hp|Hp]; [exact Hp|].
    assert (Hf : alrt ∈ filter (fun alrt => State alrt <> StatePending) alerts)
      by (apply list_elem_of_filter; auto).
    rewrite Hnil in Hf. inversion Hf.
  - intros Hall. induction alerts as [|alrt rest IH]; [reflexivity|].
    apply Forall_cons in Hall. destruct Hall as [Hp Hrest].
    rewrite filter_cons_False by (intros Hn; contradiction). apply IH, Hrest.
Qed.

End NotifyMore.

(** ** SRV addresses of the Alertmanager set *)

Lemma nameQtype_dnssrv (rest : string) : nameQtype ("dnssrv+" +:+ rest) = (rest, dns_SRV).
Proof. reflexivity. Qed.

Section AlertmanagerSRV.
Context {D : Type} {RS : Resolver D} {GN : GoNet}.

(** X22.  In a refresh that succeeds, an address [dnssrv+rest] is looked
    up under the host of [rest] exactly as written, with the query type
    "dnssrv": no default port is put on it (that is for [dns+] alone).
    Every record of the answer is in the current slice as the host of a
    URL with the scheme, user info and path of [rest]. *)
Theorem update_srv_addresses (s s' : alertmanagerSet) (d d' : D) :
  update s d = (s', d', None) ->
  Forall
    (fun addr : string =>
       forall rest : string,
         addr = "dnssrv+" +:+ rest ->
         exists (u : URL) (recs : list string) (d1 d2 : D),
           url_Parse rest = inl u
           /\ Resolve d1 (Host u) "dnssrv" = (d2, inl recs)
           /\ forall r : string,
                r ∈ recs ->
                mkURL (Scheme u) EmptyString (User u) r (Path u)
                  EmptyString false EmptyString EmptyString ∈ get s')
    (addrs s).
Proof.
  intros Heq. unfold update in Heq.
  destruct (update_loop (addrs s) d []) as [d1 [result|err]] eqn:Hl; [|discriminate].
  inversion Heq; subst; clear Heq.
  apply update_loop_success in Hl. destruct Hl as (groups & -> & Hall).
  apply Forall_forall. intros addr Hin rest ->.
  apply list_elem_of_lookup in Hin. destruct Hin as [i Hi].
  destruct (Forall2_lookup_l _ _ _ _ _ Hall Hi) as (g & Hg & u & recs & Hp & Hgeq & Hrecs).
  rewrite nameQtype_dnssrv in Hp, Hrecs. cbn [fst snd] in Hp, Hrecs.
  destruct Hrecs as [[Hq _]|[_ (d2 & d3 & Hr)]]; [discriminate|].
  exists u, recs, d2, d3. split; [exact Hp|]. split; [exact Hr|].
  intros r Hrin. simpl. apply elem_of_concat. exists g. split.
  - subst g. apply (list_elem_of_fmap_2 (fun resolved =>
                       URL_lit (Scheme u) resolved (Path u) (User u))). exact Hrin.
  - apply list_elem_of_lookup. eauto.
Qed.

End AlertmanagerSRV.

Lemma update_srv_addresses_witness :
  let s := newAlertmanagerSet ["dnssrv+https://_am._tcp.example/am"] in
  let res := @update _ Fixture.srv Fixture.net s tt in
  res = (fst (fst res), tt, None)
  /\ map Host (get (fst (fst res))) = ["am1.example:9093"; "am2.example:9094"]
  /\ Forall
       (fun addr : string =>
          forall rest : string,
            addr = "dnssrv+" +:+ rest ->
            exists (u : URL) (recs : list string) (d1 d2 : unit),
              @url_Parse Fixture.net rest = inl u
              /\ @Resolve _ Fixture.srv d1 (Host u) "dnssrv" = (d2, inl recs))
       (addrs s).
Proof.
  intros s res.
  assert (Hres : res = (fst (fst res), tt, None)) by reflexivity.
  split; [exact Hres|]. split; [reflexivity|].
  pose proof (@update_srv_addresses _ Fixture.srv Fixture.net s (fst (fst res)) tt tt Hres)
    as Hall.
  eapply Forall_impl; [exact Hall|].
  intros addr Haddr rest Hrest.
  destruct (Haddr rest Hrest) as (u & recs & d1 & d2 & Hp & Hr & _).
  exists u, recs, d1, d2. split; [exact Hp|exact Hr].
Defined.
